(** * cli-todo-list: the task store and its display projection

    A shallow embedding of [lTCT.py].  The module-level list [tasks] is the
    store; every command of the menu reads lines from the console and prints
    lines to it.  Pure helpers of the source take the store as an explicit
    argument; commands run in a small monad over a [world] made of the store,
    the lines still to be read and what was written so far.

    Text is what Python's [str] is, a sequence of code points.  [str.strip],
    [str.lower] and [int] follow CPython on all of it; what they take from the
    Unicode database of the interpreter that runs the program (the decimal
    digits outside ASCII, the lower-case forms outside ASCII) is a parameter
    of the development, and every theorem holds whatever these tables are. *)

From Stdlib Require Import ZArith NArith Ascii String Lia Sorted Permutation.
From Stdlib.Strings Require Import Byte.
From stdpp Require Import base tactics option list numbers strings pretty sorting.

Local Open Scope list_scope.
Local Open Scope Z_scope.

(** ** Text *)

(** A text is the list of its code points. *)
Definition str : Type := list N.

(** A literal between double quotes stands for the list of its bytes, which
    for ASCII text are its code points. *)
Inductive literal := lit_nil | lit_cons (c : N) (l : literal).

Fixpoint literal_of_bytes (bs : list byte) : literal :=
  match bs with
  | [] => lit_nil
  | b :: bs' => lit_cons (N.of_nat (Byte.to_nat b)) (literal_of_bytes bs')
  end.

Fixpoint bytes_of_literal (l : literal) : option (list byte) :=
  match l with
  | lit_nil => Some []
  | lit_cons c l' =>
      match Byte.of_nat (N.to_nat c), bytes_of_literal l' with
      | Some b, Some bs => Some (b :: bs)
      | _, _ => None
      end
  end.

Declare Scope str_scope.
Delimit Scope str_scope with str.
#[warning="-via-type-mismatch"]
String Notation list literal_of_bytes bytes_of_literal
  (via literal mapping [[nil] => lit_nil, [cons] => lit_cons]) : str_scope.
Local Open Scope str_scope.

(** What the program takes from the Unicode database of its interpreter:
    [decimal c] is the value of [c] when [c] is a decimal digit, asked for
    code points from 127 on only; [lower_full s i] is the lower-case form of
    the code point at position [i] of [s], asked for code points from 128 on
    only: it may be several code points, and it may depend on what stands
    around (the capital sigma). *)
Record unicode := mkUnicode {
  decimal : N → option N;
  lower_full : str → nat → str
}.

Module Text.

(** [str.isspace] for one code point *)
Definition isspace (c : N) : bool :=
  ((9 <=? c) && (c <=? 13) || (28 <=? c) && (c <=? 32)
   || (c =? 133) || (c =? 160) || (c =? 5760)
   || (8192 <=? c) && (c <=? 8202)
   || (c =? 8232) || (c =? 8233) || (c =? 8239) || (c =? 8287)
   || (c =? 12288))%N.

(** The blanks [int] skips around the ASCII form of a numeral: TAB..CR and
    the blank. *)
Definition isspace_c (c : N) : bool :=
  ((9 <=? c) && (c <=? 13) || (c =? 32))%N.

Definition isupper (c : N) : bool := ((65 <=? c) && (c <=? 90))%N.

Definition isdigit (c : N) : bool := ((48 <=? c) && (c <=? 57))%N.

Definition lower_char (c : N) : N := if isupper c then (c + 32)%N else c.

(** [s.lower()]: code point by code point, an ASCII one by [lower_char],
    another one by the table. *)
Definition lower (ucd : unicode) (s : str) : str :=
  mjoin (imap (λ i c, if (c <? 128)%N then [lower_char c] else lower_full ucd s i) s).

Fixpoint lstrip_with (sp : N → bool) (s : str) : str :=
  match s with
  | [] => []
  | c :: s' => if sp c then lstrip_with sp s' else s
  end.

Fixpoint rstrip_with (sp : N → bool) (s : str) : str :=
  match s with
  | [] => []
  | c :: s' =>
      match rstrip_with sp s' with
      | [] => if sp c then [] else [c]
      | r => c :: r
      end
  end.

Definition strip_with (sp : N → bool) (s : str) : str :=
  rstrip_with sp (lstrip_with sp s).

(** [s.strip()] *)
Definition strip : str → str := strip_with isspace.

Definition is_empty (s : str) : bool :=
  match s with [] => true | _ => false end.

(** [a == b] *)
Fixpoint eqb (a b : str) : bool :=
  match a, b with
  | [], [] => true
  | c :: a', d :: b' => (c =? d)%N && eqb a' b'
  | _, _ => false
  end.

Fixpoint startswith (kw s : str) : bool :=
  match kw, s with
  | [], _ => true
  | c :: kw', d :: s' => (c =? d)%N && startswith kw' s'
  | _ :: _, [] => false
  end.

(** [kw in s] *)
Fixpoint contains (kw s : str) : bool :=
  startswith kw s ||
  match s with
  | [] => false
  | _ :: s' => contains kw s'
  end.

Definition digit_value (c : N) : Z := Z.of_N c - 48.

(** The digits of a decimal numeral, where one underscore may sit between
    two digits; [prev] tells whether the previous character was a digit. *)
Fixpoint digits (acc : Z) (prev : bool) (s : str) : option Z :=
  match s with
  | [] => if prev then Some acc else None
  | c :: s' =>
      if isdigit c then digits (10 * acc + digit_value c) true s'
      else if (c =? 95)%N && prev then digits acc false s'
      else None
  end.

(** How many digits a text has; CPython refuses to convert a numeral of
    more than [max_str_digits] digits. *)
Fixpoint digit_count (s : str) : nat :=
  match s with
  | [] => 0%nat
  | c :: s' => ((if isdigit c then 1 else 0) + digit_count s')%nat
  end.

Definition max_str_digits : nat := 4300.

Definition is_ascii (s : str) : bool := forallb (λ c, c <? 128)%N s.

(** What [int] makes of one code point of a text that is not all ASCII
    before it reads the numeral: a blank for a space, the ASCII digit for a
    decimal digit, a question mark for anything else from 127 on. *)
Definition to_ascii_decimal (ucd : unicode) (c : N) : N :=
  if (c <? 127)%N then c
  else if isspace c then 32%N
  else match decimal ucd c with
       | Some d => (48 + d)%N
       | None => 63%N
       end.

(** The ASCII form [int] reads.  CPython cuts it after the first question
    mark it writes; no numeral holds one, so the form is not cut here. *)
Definition ascii_form (ucd : unicode) (s : str) : str :=
  if is_ascii s then s else to_ascii_decimal ucd <$> s.

(** [int(s)], with [None] for [ValueError]. *)
Definition int (ucd : unicode) (s : str) : option Z :=
  let a := ascii_form ucd s in
  if (max_str_digits <? digit_count a)%nat then None
  else
    match strip_with isspace_c a with
    | c :: s' =>
        if (c =? 45)%N then Z.opp <$> digits 0 false s'
        else if (c =? 43)%N then digits 0 false s'
        else digits 0 false (c :: s')
    | [] => None
    end.

Definition nl : str := [10%N].

(** The text of a string of ASCII characters. *)
Definition of_string (s : string) : str := N_of_ascii <$> list_ascii_of_string s.

End Text.

(** [str(x)] for a number *)
Definition repr {A} `{Pretty A} (x : A) : str := Text.of_string (pretty x).

(** The tables of the Basic Latin block alone: no digit and no case beyond
    ASCII.  On ASCII text every table gives what this one gives. *)
Definition basic : unicode :=
  {| decimal := λ _, None;
     lower_full := λ s i, match s !! i with Some c => [c] | None => [] end |}.

(** A table that knows, beyond ASCII, the fullwidth digits and the capital
    letters of Latin-1: enough to run the program on some text outside
    ASCII. *)
Definition sample : unicode :=
  {| decimal := λ c,
       if ((65296 <=? c) && (c <=? 65305))%N then Some (c - 65296)%N else None;
     lower_full := λ s i,
       match s !! i with
       | Some c =>
           if ((192 <=? c) && (c <=? 222) && negb (c =? 215))%N then [(c + 32)%N]
           else [c]
       | None => []
       end |}.

(** ** The store *)

Section Program.
Context (ucd : unicode).

Record Task := mkTask { title : str; done : bool; priority : Z }.

(** [enumerate(l, start)] *)
Fixpoint enumerate_from {A} (start : nat) (l : list A) : list (nat * A) :=
  match l with
  | [] => []
  | x :: l' => (start, x) :: enumerate_from (S start) l'
  end.

Definition enumerate {A} (l : list A) : list (nat * A) := enumerate_from 0 l.

(** [sorted(l, key=key)]: Python's sort is stable, and a stable sort has one
    possible result for a key with a total order; it is computed here by
    insertion, each element going in front of the first one whose key is not
    smaller. *)
Section Sorted.
Context {A : Type} (key : A → Z).

Fixpoint insert_by (x : A) (l : list A) : list A :=
  match l with
  | [] => [x]
  | y :: l' => if key x <=? key y then x :: l else y :: insert_by x l'
  end.

Fixpoint sorted (l : list A) : list A :=
  match l with
  | [] => []
  | x :: l' => insert_by x (sorted l')
  end.
End Sorted.

Definition by_priority (pair : nat * Task) : Z := priority (snd pair).

Section Projection.
(** The module-level list [tasks]. *)
Variable tasks : list Task.

Definition title_exists (title' : str) : bool :=
  existsb (λ t, Text.eqb (Text.lower ucd (title t)) (Text.lower ucd title')) tasks.

Definition find_matching_tasks (keyword : str) : list (nat * Task) :=
  let matches :=
    List.filter (λ p, Text.contains keyword (Text.lower ucd (title (snd p))))
                (enumerate tasks) in
  sorted by_priority matches.

Definition _indexed_tasks : list (nat * Task) := enumerate tasks.

Definition _sorted_indexed_by_priority (indexed : option (list (nat * Task)))
  : list (nat * Task) :=
  let indexed := match indexed with None => _indexed_tasks | Some l => l end in
  sorted by_priority indexed.

Definition build_display_groups : list (nat * Task) * list (nat * Task) :=
  let sorted_indexed := _sorted_indexed_by_priority None in
  let undone := List.filter (λ pair, negb (done (snd pair))) sorted_indexed in
  let done' := List.filter (λ pair, done (snd pair)) sorted_indexed in
  (undone, done').

Definition build_display_mapping : list nat :=
  let '(undone, done') := build_display_groups in
  fst <$> (undone ++ done').
End Projection.

Definition format_task_line (index : nat) (task : Task) : str :=
  let status := if done task then "[x]" else "[ ]" in
  repr index ++ ". " ++ status ++ " " ++ title task
    ++ " (Priority: " ++ repr (priority task) ++ ")".

(** ** The console and the commands *)

Record world := mkWorld {
  tasks : list Task;      (* the module-level list *)
  stdin : list str;    (* the lines not read yet *)
  stdout : list str    (* what was written, oldest first *)
}.

(** Exceptions no command catches: the end of the input, and an index outside
    a list. *)
Inductive exception := EOFError | IndexError.

Inductive outcome (A : Type) :=
| Returned (a : A) (w : world)
| Raised (e : exception) (w : world).
Arguments Returned {A} a w.
Arguments Raised {A} e w.

Definition io (A : Type) : Type := world → outcome A.

#[global] Instance io_ret : MRet io := λ A a w, Returned a w.
#[global] Instance io_bind : MBind io := λ A B f c w,
  match c w with
  | Returned a w' => f a w'
  | Raised e w' => Raised e w'
  end.

Definition final_world {A} (o : outcome A) : world :=
  match o with Returned _ w => w | Raised _ w => w end.

Definition write (s : str) (w : world) : world :=
  {| tasks := tasks w; stdin := stdin w; stdout := stdout w ++ [s] |}.

Definition print (s : str) : io unit := λ w, Returned () (write (s ++ Text.nl) w).

Definition input (prompt : str) : io str := λ w,
  let w' := write prompt w in
  match stdin w with
  | [] => Raised EOFError w'
  | line :: rest =>
      Returned line {| tasks := tasks w'; stdin := rest; stdout := stdout w' |}
  end.

Definition get_tasks : io (list Task) := λ w, Returned (tasks w) w.

Definition set_tasks (ts : list Task) : io unit := λ w,
  Returned () {| tasks := ts; stdin := stdin w; stdout := stdout w |}.

(** [l[i]] for [0 <= i] *)
Definition getitem {A} (l : list A) (i : nat) : io A := λ w,
  match l !! i with
  | Some x => Returned x w
  | None => Raised IndexError w
  end.

Fixpoint for_each {A} (l : list A) (body : A → io unit) : io unit :=
  match l with
  | [] => mret ()
  | x :: l' => body x;; for_each l' body
  end.

Definition print_menu : io unit :=
  print (Text.nl ++ "--- Daily Task Manager (oT-oT) ---");;
  print "1 - Add new task";;
  print "2 - Show all tasks";;
  print "3 - Toggle task status";;
  print "4 - Delete a task";;
  print "5 - Report (done/undone count)";;
  print "6 - Search tasks";;
  print "0 - Exit".

(** The [while True] of [input_priority] reads one line per round, so it is
    a recursion on the lines that are left; running out of them is the
    [EOFError] of [input]. *)
Fixpoint input_priority_loop (lines : list str) (w : world) : outcome Z :=
  let w1 := write "Enter priority (1=High, 2=Medium, 3=Low): " w in
  match lines with
  | [] => Raised EOFError w1
  | line :: rest =>
      let w2 := {| tasks := tasks w1; stdin := rest; stdout := stdout w1 |} in
      match Text.int ucd line with
      | Some p =>
          if (p =? 1) || (p =? 2) || (p =? 3) then Returned p w2
          else input_priority_loop rest
                 (write ("Invalid priority. Try again." ++ Text.nl) w2)
      | None =>
          input_priority_loop rest
            (write ("Please enter a number (1-3)." ++ Text.nl) w2)
      end
  end.

Definition input_priority : io Z := λ w, input_priority_loop (stdin w) w.

Definition add_task : io unit :=
  line ← input "Task title: ";
  let title' := Text.strip line in
  if Text.is_empty title' then print "Title cannot be empty."
  else
    ts ← get_tasks;
    if title_exists ts title' then print "Task with this title already exists."
    else
      priority' ← input_priority;
      ts ← get_tasks;
      set_tasks (ts ++ [{| title := title'; done := false; priority := priority' |}]);;
      print "Task added.".

Definition get_display_index (prompt : str) : io (option nat) :=
  ts ← get_tasks;
  match ts with
  | [] => print "No tasks available.";; mret None
  | _ =>
      let mapping := build_display_mapping ts in
      line ← input prompt;
      match Text.int ucd line with
      | None => print "Please enter a valid number.";; mret None
      | Some idx =>
          if (1 <=? idx) && (idx <=? Z.of_nat (length mapping)) then
            orig ← getitem mapping (Z.to_nat (idx - 1));
            mret (Some orig)
          else
            print "Invalid task number.";; mret None
      end
  end.

Definition print_grouped_tasks : io unit :=
  ts ← get_tasks;
  let '(undone, done') := build_display_groups ts in
  print (Text.nl ++ "Tasks:");;
  (match undone with
   | _ :: _ =>
       print (Text.nl ++ "Undone:");;
       for_each (enumerate_from 1 undone)
         (λ '(i, (_, task)), print (format_task_line i task))
   | [] => print (Text.nl ++ "No undone tasks.")
   end);;
  match done' with
  | _ :: _ =>
      let start := (length undone + 1)%nat in
      print (Text.nl ++ "Done:");;
      for_each (enumerate_from start done')
        (λ '(offset, (_, task)), print (format_task_line offset task))
  | [] => mret ()
  end.

Definition show_tasks : io unit :=
  ts ← get_tasks;
  match ts with
  | [] => print "No tasks found."
  | _ => print_grouped_tasks
  end.

(** [tasks[i]["done"] = v] *)
Definition set_done (v : bool) (t : Task) : Task :=
  {| title := title t; done := v; priority := priority t |}.

(** [tasks[i]["done"] = not tasks[i]["done"]] for [0 <= i] *)
Definition toggle_done (i : nat) : io unit :=
  ts ← get_tasks;
  t ← getitem ts i;
  set_tasks (alter (set_done (negb (done t))) i ts).

Definition toggle_task : io unit :=
  orig_idx ← get_display_index "Enter task number to toggle: ";
  match orig_idx with
  | None => mret ()
  | Some orig_idx =>
      toggle_done orig_idx;;
      print "Task status updated."
  end.

(** [del l[i]] for [0 <= i] *)
Definition delitem (i : nat) : io unit := λ w,
  if (i <? length (tasks w))%nat then set_tasks (delete i (tasks w)) w
  else Raised IndexError w.

Definition delete_task : io unit :=
  orig_idx ← get_display_index "Enter task number to delete: ";
  match orig_idx with
  | None => mret ()
  | Some orig_idx =>
      delitem orig_idx;;
      print "Task deleted."
  end.

Definition report : io unit :=
  ts ← get_tasks;
  let done_count := length (List.filter done ts) in
  let undone_count := (length ts - done_count)%nat in
  print ("Done: " ++ repr done_count ++ " | Undone: " ++ repr undone_count).

Definition search_tasks : io unit :=
  line ← input "Enter keyword to search: ";
  let keyword := Text.lower ucd (Text.strip line) in
  if Text.is_empty keyword then print "Keyword cannot be empty."
  else
    ts ← get_tasks;
    let sorted_found := find_matching_tasks ts keyword in
    match sorted_found with
    | [] => print "No tasks found for this keyword."
    | _ =>
        print (Text.nl ++ "Search results:");;
        for_each (enumerate_from 1 sorted_found)
          (λ '(idx, (_, task)), print (format_task_line idx task))
    end.

(** The table [actions] of [main]. *)
Definition actions (choice : Z) : option (io unit) :=
  if choice =? 1 then Some add_task
  else if choice =? 2 then Some show_tasks
  else if choice =? 3 then Some toggle_task
  else if choice =? 4 then Some delete_task
  else if choice =? 5 then Some report
  else if choice =? 6 then Some search_tasks
  else None.

(** One round of the loop of [main]: [true] when the loop goes on, [false]
    after the exit command. *)
Definition main_round : io bool :=
  print_menu;;
  line ← input "Select an option (0-6): ";
  match Text.int ucd line with
  | None => print "Please enter a valid number.";; mret true
  | Some choice =>
      if choice =? 0 then print "Exiting. Goodbye!";; mret false
      else
        match actions choice with
        | Some action => action;; mret true
        | None => print "Invalid option. Try again.";; mret true
        end
  end.

(** [main]: at most [fuel] rounds; the result tells whether the loop was
    still running when the rounds were used up. *)
Fixpoint main (fuel : nat) : io bool :=
  match fuel with
  | O => mret true
  | S fuel' =>
      running ← main_round;
      if running : bool then main fuel' else mret false
  end.

Definition initial (lines : list str) : world :=
  {| tasks := []; stdin := lines; stdout := [] |}.

(** ** Orders and invariants used in the statements *)

(** [a] goes before [b] by key, and by [R] among equal keys. *)
Definition key_then {A} (key : A → Z) (R : relation A) : relation A :=
  λ a b, key a < key b ∨ (key a = key b ∧ R a b).

Definition index_lt : relation (nat * Task) := λ p q, (fst p < fst q)%nat.

(** Along a group, priorities never decrease, and among equal priorities the
    original indices increase. *)
Definition priority_stable (g : list (nat * Task)) : Prop :=
  ∀ a b p q, (a < b)%nat → g !! a = Some p → g !! b = Some q →
    priority (snd p) ≤ priority (snd q) ∧
    (priority (snd p) = priority (snd q) → (fst p < fst q)%nat).

(** Every pair of a view is an index of the store with the task it holds. *)
Definition from_store (ts : list Task) (g : list (nat * Task)) : Prop :=
  ∀ p, p ∈ g → ts !! fst p = Some (snd p).

(** The world after a command kept the store, left [rest] to be read and
    wrote [written]. *)
Definition after (w : world) (rest written : list str) : world :=
  {| tasks := tasks w; stdin := rest; stdout := stdout w ++ written |}.

Definition with_tasks (ts : list Task) (w : world) : world :=
  {| tasks := ts; stdin := stdin w; stdout := stdout w |}.

Definition line_of (s : str) : str := s ++ Text.nl.

(** The stores the program can be in: the empty one at the start, and the
    one any command of the menu leaves, whatever it reads and however it
    ends. *)
Inductive reachable : list Task → Prop :=
| reachable_initial : reachable []
| reachable_action ts choice action ins out :
    reachable ts →
    actions choice = Some action →
    reachable (tasks (final_world (action (mkWorld ts ins out)))).

(** No two slots of the store hold titles that are equal up to case. *)
Definition unique_titles (ts : list Task) : Prop :=
  ∀ i j ti tj, ts !! i = Some ti → ts !! j = Some tj →
    Text.lower ucd (title ti) = Text.lower ucd (title tj) → i = j.

(** What [add_task] guarantees of every task it appends. *)
Definition clean (t : Task) : Prop :=
  Text.strip (title t) = title t ∧ title t ≠ "" ∧
  (priority t = 1 ∨ priority t = 2 ∨ priority t = 3).

Definition well_formed (ts : list Task) : Prop :=
  NoDup ((λ t, Text.lower ucd (title t)) <$> ts) ∧ Forall clean ts.

(** A command that never changes the store, however it ends. *)
Definition preserves_tasks {A} (c : io A) : Prop :=
  ∀ w, tasks (final_world (c w)) = tasks w.

(** The words of the search claim: [title] contains [keyword] as a
    substring when case is ignored on both sides. *)
Definition ci_contains (keyword title' : str) : bool :=
  Text.contains (Text.lower ucd keyword) (Text.lower ucd title').

(** What [search_tasks] prints after its prompt for the keyword [keyword] it
    has made of the line read. *)
Definition search_report (ts : list Task) (keyword : str) : list str :=
  if Text.is_empty keyword then [line_of "Keyword cannot be empty."]
  else
    match find_matching_tasks ts keyword with
    | [] => [line_of "No tasks found for this keyword."]
    | found =>
        line_of (Text.nl ++ "Search results:")
          :: ((λ '(idx, (_, task)), line_of (format_task_line idx task))
                <$> enumerate_from 1 found)
    end.

(** ** Shapes used in the further statements *)

(** What [input_priority] makes of one line: the priority it returns for it,
    or nothing when it asks again. *)
Definition accepted_priority (line : str) : option Z :=
  match Text.int ucd line with
  | Some p => if (p =? 1) || (p =? 2) || (p =? 3) then Some p else None
  | None => None
  end.

(** What [input_priority] writes for a line it does not accept: its prompt,
    and after the line was read the complaint about it. *)
Definition priority_retry (line : str) : list str :=
  ["Enter priority (1=High, 2=Medium, 3=Low): ";
   line_of (match Text.int ucd line with
            | Some _ => "Invalid priority. Try again."
            | None => "Please enter a number (1-3)."
            end)].

(** A command that can only fail by [EOFError], and then has read all there
    was to read. *)
Definition fails_only_at_eof {A} (c : io A) : Prop :=
  ∀ w e w', c w = Raised e w' → e = EOFError ∧ stdin w' = [].

(** A command that only takes lines from the front of the input. *)
Definition reads_forward {A} (c : io A) : Prop :=
  ∀ w, stdin (final_world (c w)) `suffix_of` stdin w.

(** The lines [print_grouped_tasks] prints for a group numbered from
    [start]. *)
Definition group_lines (start : nat) (g : list (nat * Task)) : list str :=
  (λ '(i, (_, task)), line_of (format_task_line i task)) <$> enumerate_from start g.

(** All that [show_tasks] prints for a store. *)
Definition display_report (ts : list Task) : list str :=
  match ts with
  | [] => [line_of "No tasks found."]
  | _ =>
      let '(undone, done') := build_display_groups ts in
      [line_of (Text.nl ++ "Tasks:")]
        ++ match undone with
           | [] => [line_of (Text.nl ++ "No undone tasks.")]
           | _ => line_of (Text.nl ++ "Undone:") :: group_lines 1 undone
           end
        ++ match done' with
           | [] => []
           | _ => line_of (Text.nl ++ "Done:")
                    :: group_lines (length undone + 1) done'
           end
  end.

(** A text made of digits only, and the number it writes after the digits
    that gave [acc]. *)
Fixpoint all_digits (s : str) : bool :=
  match s with
  | [] => true
  | c :: s' => Text.isdigit c && all_digits s'
  end.

Fixpoint numeral_value (acc : Z) (s : str) : Z :=
  match s with
  | [] => acc
  | c :: s' => numeral_value (10 * acc + Text.digit_value c) s'
  end.

(** The order of the display between two original indices of a store:
    an undone task goes before a done one; of two tasks that are both undone
    or both done, the smaller priority goes first, and of equal priorities
    the smaller original index. *)
Definition display_before (ts : list Task) (i j : nat) : Prop :=
  ∃ ti tj, ts !! i = Some ti ∧ ts !! j = Some tj ∧
    ((done ti = false ∧ done tj = true) ∨
     (done ti = done tj ∧
      (priority ti < priority tj ∨ (priority ti = priority tj ∧ (i < j)%nat)))).

(** Where an original index other than the deleted [i] goes by
    [del tasks[i]]. *)
Definition shifted (i j : nat) : nat := if (j <? i)%nat then j else pred j.

Definition other_than (i j : nat) : bool := negb (j =? i)%nat.

(** ** Facts about text *)

Lemma Text_eqb_eq (a b : str) : Text.eqb a b = true ↔ a = b.
Proof.
  revert b. induction a as [|c a IH]; intros [|d b]; simpl; try done.
  rewrite andb_true_iff, N.eqb_eq, IH. split; [by intros [-> ->] | by intros [= -> ->]].
Qed.

Lemma is_empty_true (s : str) : Text.is_empty s = true ↔ s = [].
Proof. by destruct s. Qed.

Section Strip.
Variable sp : N → bool.

Lemma lstrip_fix_or_shorter s :
  Text.lstrip_with sp s = s ∨ (length (Text.lstrip_with sp s) < length s)%nat.
Proof.
  induction s as [|c s IH]; simpl; [by left |].
  destruct (sp c); [right | by left].
  destruct IH as [-> | ?]; lia.
Qed.

Lemma lstrip_idemp s :
  Text.lstrip_with sp (Text.lstrip_with sp s) = Text.lstrip_with sp s.
Proof.
  induction s as [|c s IH]; simpl; [done |].
  destruct (sp c) eqn:E; [done |]. simpl. by rewrite E.
Qed.

Lemma rstrip_cons c s :
  Text.rstrip_with sp (c :: s)
    = match Text.rstrip_with sp s with
      | [] => if sp c then [] else [c]
      | r => c :: r
      end.
Proof. done. Qed.

Lemma rstrip_idemp s :
  Text.rstrip_with sp (Text.rstrip_with sp s) = Text.rstrip_with sp s.
Proof.
  induction s as [|c s IH]; [done |]. rewrite rstrip_cons.
  destruct (Text.rstrip_with sp s) as [|d r] eqn:E.
  - destruct (sp c) eqn:Ec; [done |]. simpl. by rewrite Ec.
  - rewrite rstrip_cons. by rewrite IH.
Qed.

Lemma lstrip_rstrip_fix s :
  Text.lstrip_with sp s = s →
  Text.lstrip_with sp (Text.rstrip_with sp s) = Text.rstrip_with sp s.
Proof.
  destruct s as [|c s]; [done |]. simpl Text.lstrip_with at 1.
  destruct (sp c) eqn:Ec.
  - intros H. pose proof (lstrip_fix_or_shorter s) as [H' | H'];
      rewrite H in H'; simpl in H'; [| lia].
    apply (f_equal length) in H'. simpl in H'. lia.
  - intros _. rewrite rstrip_cons.
    destruct (Text.rstrip_with sp s); rewrite ?Ec; simpl; by rewrite Ec.
Qed.

Lemma strip_with_idemp s :
  Text.strip_with sp (Text.strip_with sp s) = Text.strip_with sp s.
Proof.
  unfold Text.strip_with.
  rewrite (lstrip_rstrip_fix (Text.lstrip_with sp s)) by apply lstrip_idemp.
  apply rstrip_idemp.
Qed.

Lemma lstrip_all_space s :
  Forall (λ c, sp c = true) s → Text.lstrip_with sp s = [].
Proof.
  induction 1 as [|c s Hc _ IH]; simpl; [done |]. by rewrite Hc.
Qed.
End Strip.

Lemma strip_idemp s : Text.strip (Text.strip s) = Text.strip s.
Proof. apply strip_with_idemp. Qed.

Lemma strip_all_space s :
  Forall (λ c, Text.isspace c = true) s → Text.strip s = "".
Proof.
  intros H. unfold Text.strip, Text.strip_with. by rewrite lstrip_all_space.
Qed.

(** On ASCII text [lower] does not look at the tables. *)
Lemma lower_ascii (s : str) :
  Text.is_ascii s = true → Text.lower ucd s = Text.lower_char <$> s.
Proof.
  unfold Text.lower, Text.is_ascii. generalize (lower_full ucd s). intros g.
  revert g. induction s as [|c s IH]; intros g Hs; [done |].
  simpl in Hs. apply andb_prop in Hs as [Hc Hs].
  simpl. rewrite Hc. simpl. f_equal. by apply IH.
Qed.

(** On ASCII text [int] does not look at the tables. *)
Lemma ascii_form_ascii (s : str) :
  Text.is_ascii s = true → Text.ascii_form ucd s = s.
Proof. intros Hs. unfold Text.ascii_form. by rewrite Hs. Qed.

(** ** Facts about [sorted] *)

Section SortedFacts.
Context {A : Type} (key : A → Z).

Lemma insert_by_perm x l : insert_by key x l ≡ₚ x :: l.
Proof.
  induction l as [|y l IH]; simpl; [done |].
  destruct (key x <=? key y); [done |].
  rewrite IH. apply perm_swap.
Qed.

Lemma sorted_perm l : sorted key l ≡ₚ l.
Proof.
  induction l as [|x l IH]; simpl; [done |].
  by rewrite insert_by_perm, IH.
Qed.

Lemma length_sorted l : length (sorted key l) = length l.
Proof. apply Permutation_length, sorted_perm. Qed.

Variable R : relation A.

Lemma insert_by_sorted x l :
  StronglySorted (key_then key R) l → Forall (R x) l →
  StronglySorted (key_then key R) (insert_by key x l).
Proof.
  induction l as [|y l IH]; simpl; intros Hs Hx.
  - repeat constructor.
  - apply StronglySorted_cons in Hs as [Hy Hs].
    apply Forall_cons in Hx as [Hxy Hx].
    destruct (Z.leb_spec (key x) (key y)) as [Hle | Hgt].
    + apply StronglySorted_cons. split; [| by apply StronglySorted_cons].
      apply Forall_cons. split.
      * unfold key_then. destruct (decide (key x = key y)); [right | left]; [done | lia].
      * rewrite Forall_forall in Hy, Hx |- *. intros z Hz.
        specialize (Hy z Hz). specialize (Hx z Hz).
        unfold key_then in *.
        destruct (decide (key x = key z)); [by right | left; lia].
    + apply StronglySorted_cons. split; [| by apply IH].
      rewrite insert_by_perm. apply Forall_cons. split; [| done].
      left. lia.
Qed.

(** Stability: what was in [R]-order stays so among equal keys. *)
Lemma sorted_stable l :
  StronglySorted R l → StronglySorted (key_then key R) (sorted key l).
Proof.
  induction l as [|x l IH]; simpl; intros Hs; [constructor |].
  apply StronglySorted_cons in Hs as [Hx Hs].
  apply insert_by_sorted; [by apply IH |].
  by rewrite sorted_perm.
Qed.
End SortedFacts.

Section ListFacts.
Context {A : Type}.

Lemma StronglySorted_filter (R : relation A) (f : A → bool) l :
  StronglySorted R l → StronglySorted R (List.filter f l).
Proof.
  induction l as [|x l IH]; simpl; intros Hs; [constructor |].
  apply StronglySorted_cons in Hs as [Hx Hs].
  destruct (f x); [| by apply IH].
  apply StronglySorted_cons. split; [| by apply IH].
  rewrite Forall_forall in Hx |- *. intros y Hy. apply Hx.
  apply list_elem_of_In, filter_In in Hy as [Hy _]. by apply list_elem_of_In.
Qed.

Lemma StronglySorted_lookup (R : relation A) l a b p q :
  StronglySorted R l → (a < b)%nat → l !! a = Some p → l !! b = Some q → R p q.
Proof.
  intros Hs. revert a b. induction Hs as [|x l Hs IH Hx]; intros a b Hab Ha Hb.
  - by rewrite lookup_nil in Ha.
  - destruct b as [|b]; [lia |]. simpl in Hb. destruct a as [|a]; simpl in Ha.
    + injection Ha as <-. rewrite Forall_forall in Hx. apply Hx.
      by eapply list_elem_of_lookup_2.
    + apply (IH a b); [lia | done | done].
Qed.

Lemma elem_of_filter (f : A → bool) l x :
  x ∈ List.filter f l ↔ x ∈ l ∧ f x = true.
Proof. rewrite !list_elem_of_In. apply filter_In. Qed.

Lemma filter_split_perm (f : A → bool) l :
  List.filter (λ x, negb (f x)) l ++ List.filter f l ≡ₚ l.
Proof.
  induction l as [|x l IH]; simpl; [done |].
  destruct (f x); simpl.
  - by rewrite <- Permutation_middle, IH.
  - by rewrite IH.
Qed.
End ListFacts.

(** ** Facts about the projection *)

Lemma fst_enumerate_from {A} (start : nat) (l : list A) :
  fst <$> enumerate_from start l = seq start (length l).
Proof.
  revert start. induction l as [|x l IH]; intros start; simpl; [done |].
  by rewrite IH.
Qed.

Lemma elem_of_enumerate_from {A} (start : nat) (l : list A) i x :
  (i, x) ∈ enumerate_from start l ↔ (start ≤ i)%nat ∧ l !! (i - start)%nat = Some x.
Proof.
  revert start. induction l as [|y l IH]; intros start; simpl.
  - rewrite elem_of_nil, lookup_nil. split; [done | by intros [_ ?]].
  - rewrite elem_of_cons, IH. split.
    + intros [[= -> ->] | [Hle Hl]].
      * split; [lia |]. by replace (start - start)%nat with 0%nat by lia.
      * split; [lia |]. by replace (i - start)%nat with (S (i - S start)) by lia.
    + intros [Hle Hl]. destruct (decide (i = start)) as [-> | Hne].
      * left. replace (start - start)%nat with 0%nat in Hl by lia.
        simpl in Hl. congruence.
      * right. split; [lia |].
        by replace (i - start)%nat with (S (i - S start)) in Hl by lia.
Qed.

Lemma elem_of_enumerate {A} (l : list A) i x :
  (i, x) ∈ enumerate l ↔ l !! i = Some x.
Proof.
  unfold enumerate. rewrite elem_of_enumerate_from.
  replace (i - 0)%nat with i by lia. intuition lia.
Qed.

Lemma enumerate_from_sorted (start : nat) (l : list Task) :
  StronglySorted index_lt (enumerate_from start l).
Proof.
  revert start. induction l as [|x l IH]; intros start; simpl; [constructor |].
  apply StronglySorted_cons. split; [| apply IH].
  apply Forall_forall. intros [i t] Hi.
  apply elem_of_enumerate_from in Hi as [Hle _]. unfold index_lt. simpl. lia.
Qed.

Lemma sorted_indexed_perm ts :
  _sorted_indexed_by_priority ts None ≡ₚ enumerate ts.
Proof. apply sorted_perm. Qed.

Lemma sorted_indexed_order ts :
  StronglySorted (key_then by_priority index_lt) (_sorted_indexed_by_priority ts None).
Proof. apply sorted_stable, enumerate_from_sorted. Qed.

(** Any stable sort by priority of a list in index order gives what [sorted]
    gives, so [sorted] stands for Python's sort here. *)
Lemma sorted_by_priority_unique (l l' : list (nat * Task)) :
  StronglySorted index_lt l →
  l' ≡ₚ l →
  StronglySorted (key_then by_priority index_lt) l' →
  l' = sorted by_priority l.
Proof.
  intros Hl Hperm Hl'.
  apply (StronglySorted_unique_strong (key_then by_priority index_lt)).
  - intros x1 x2 _ _ [H12 | [He12 Hi12]] [H21 | [He21 Hi21]];
      unfold index_lt in *; lia.
  - done.
  - by apply sorted_stable.
  - by rewrite Hperm, sorted_perm.
Qed.

Lemma key_then_priority_stable g :
  StronglySorted (key_then by_priority index_lt) g → priority_stable g.
Proof.
  intros Hs a b p q Hab Ha Hb.
  destruct (StronglySorted_lookup _ _ _ _ _ _ Hs Hab Ha Hb) as [Hlt | [Heq Hi]];
    unfold by_priority, index_lt in *; split; intros; lia || done.
Qed.

Lemma undone_group ts p :
  p ∈ fst (build_display_groups ts) ↔ ts !! fst p = Some (snd p) ∧ done (snd p) = false.
Proof.
  unfold build_display_groups. simpl.
  rewrite elem_of_filter, sorted_indexed_perm. destruct p as [i t]; simpl.
  by rewrite elem_of_enumerate, negb_true_iff.
Qed.

Lemma done_group ts p :
  p ∈ snd (build_display_groups ts) ↔ ts !! fst p = Some (snd p) ∧ done (snd p) = true.
Proof.
  unfold build_display_groups. simpl.
  rewrite elem_of_filter, sorted_indexed_perm. destruct p as [i t]; simpl.
  by rewrite elem_of_enumerate.
Qed.

Lemma build_display_mapping_groups ts :
  build_display_mapping ts =
    (fst <$> fst (build_display_groups ts)) ++ (fst <$> snd (build_display_groups ts)).
Proof. unfold build_display_mapping. simpl. apply fmap_app. Qed.

Lemma build_display_mapping_perm ts :
  build_display_mapping ts ≡ₚ seq 0 (length ts).
Proof.
  unfold build_display_mapping, build_display_groups. simpl.
  rewrite filter_split_perm, sorted_indexed_perm.
  unfold enumerate. by rewrite fst_enumerate_from.
Qed.

Lemma length_build_display_mapping ts :
  length (build_display_mapping ts) = length ts.
Proof.
  rewrite (Permutation_length (build_display_mapping_perm ts)). apply length_seq.
Qed.

Lemma build_display_mapping_NoDup ts : NoDup (build_display_mapping ts).
Proof. rewrite build_display_mapping_perm. apply NoDup_seq. Qed.

Lemma build_display_mapping_lookup_lt ts k i :
  build_display_mapping ts !! k = Some i → (i < length ts)%nat.
Proof.
  intros H. apply list_elem_of_lookup_2 in H.
  rewrite build_display_mapping_perm in H. apply elem_of_seq in H. lia.
Qed.

(** ** Facts about the commands *)

Ltac run := unfold mbind, io_bind, mret, io_ret, print, input, get_tasks,
  set_tasks, getitem, write, after, with_tasks, line_of; simpl.

Section GetDisplayIndex.
Variables (prompt : str) (w : world).

Lemma get_display_index_empty :
  tasks w = [] →
  get_display_index prompt w
    = Returned None (after w (stdin w) [line_of "No tasks available."]).
Proof. destruct w as [ts ins out]; simpl. intros ->. reflexivity. Qed.

Lemma get_display_index_eof :
  tasks w ≠ [] → stdin w = [] →
  get_display_index prompt w = Raised EOFError (after w [] [prompt]).
Proof.
  destruct w as [ts ins out]; simpl. intros Hts ->.
  destruct ts; [done |]. reflexivity.
Qed.

Variables (line : str) (rest : list str).
Hypothesis Hts : tasks w ≠ [].
Hypothesis Hin : stdin w = line :: rest.

Lemma get_display_index_not_int :
  Text.int ucd line = None →
  get_display_index prompt w
    = Returned None (after w rest [prompt; line_of "Please enter a valid number."]).
Proof.
  destruct w as [ts ins out]; simpl in *. subst ins. intros Hint.
  destruct ts; [done |]. unfold get_display_index. run. rewrite Hint. run.
  by rewrite <- app_assoc.
Qed.

Lemma get_display_index_outside n :
  Text.int ucd line = Some n →
  ¬ (1 ≤ n ≤ Z.of_nat (length (build_display_mapping (tasks w)))) →
  get_display_index prompt w
    = Returned None (after w rest [prompt; line_of "Invalid task number."]).
Proof.
  destruct w as [ts ins out]; simpl in *. subst ins. intros Hint Hn.
  destruct ts as [|t ts]; [done |]. unfold get_display_index. run. rewrite Hint.
  destruct (Z.leb_spec 1 n); simpl;
    [destruct (Z.leb_spec n (Z.of_nat (length (build_display_mapping (t :: ts))))) |];
    try lia; run; by rewrite <- app_assoc.
Qed.

Lemma get_display_index_inside n :
  Text.int ucd line = Some n →
  1 ≤ n ≤ Z.of_nat (length (build_display_mapping (tasks w))) →
  ∃ i, build_display_mapping (tasks w) !! Z.to_nat (n - 1) = Some i ∧
       get_display_index prompt w = Returned (Some i) (after w rest [prompt]).
Proof.
  destruct w as [ts ins out]; simpl in *. subst ins. intros Hint Hn.
  destruct (lookup_lt_is_Some_2 (build_display_mapping ts) (Z.to_nat (n - 1)))
    as [i Hi]; [lia |].
  exists i. split; [done |].
  destruct ts as [|t ts]; [done |]. unfold get_display_index. run. rewrite Hint.
  destruct (Z.leb_spec 1 n); simpl;
    [destruct (Z.leb_spec n (Z.of_nat (length (build_display_mapping (t :: ts))))) |];
    try lia; run. by rewrite Hi.
Qed.
End GetDisplayIndex.

Lemma get_display_index_tasks prompt w :
  tasks (final_world (get_display_index prompt w)) = tasks w.
Proof.
  destruct (tasks w) as [|t ts] eqn:Hts.
  { rewrite get_display_index_empty by done. simpl. done. }
  assert (tasks w ≠ []) as Hne by congruence.
  destruct (stdin w) as [|line rest] eqn:Hin.
  { rewrite get_display_index_eof by done. done. }
  destruct (Text.int ucd line) as [n|] eqn:Hint.
  - destruct (decide (1 ≤ n ≤ Z.of_nat (length (build_display_mapping (tasks w)))))
      as [Hn | Hn].
    + destruct (get_display_index_inside prompt w line rest Hne Hin n Hint Hn)
        as (i & _ & ->). done.
    + by rewrite (get_display_index_outside prompt w line rest Hne Hin n Hint Hn).
  - by rewrite (get_display_index_not_int prompt w line rest Hne Hin Hint).
Qed.

(** A lookup that gives an index gives one of the store. *)
Lemma get_display_index_Some prompt w i w' :
  get_display_index prompt w = Returned (Some i) w' →
  ∃ line rest n,
    stdin w = line :: rest ∧ Text.int ucd line = Some n ∧
    1 ≤ n ≤ Z.of_nat (length (build_display_mapping (tasks w))) ∧
    build_display_mapping (tasks w) !! Z.to_nat (n - 1) = Some i ∧
    w' = after w rest [prompt].
Proof.
  intros H.
  destruct (tasks w) as [|t ts] eqn:Hts.
  { rewrite get_display_index_empty in H by done. discriminate. }
  assert (tasks w ≠ []) as Hne by congruence.
  destruct (stdin w) as [|line rest] eqn:Hin.
  { rewrite get_display_index_eof in H by done. discriminate. }
  destruct (Text.int ucd line) as [n|] eqn:Hint.
  - destruct (decide (1 ≤ n ≤ Z.of_nat (length (build_display_mapping (tasks w)))))
      as [Hn | Hn].
    + destruct (get_display_index_inside prompt w line rest Hne Hin n Hint Hn)
        as (i' & Hi' & Heq).
      rewrite Heq in H. injection H as <- <-.
      exists line, rest, n. by rewrite <- Hts.
    + rewrite (get_display_index_outside prompt w line rest Hne Hin n Hint Hn) in H.
      discriminate.
  - rewrite (get_display_index_not_int prompt w line rest Hne Hin Hint) in H.
    discriminate.
Qed.

Lemma toggle_done_valid w i t :
  tasks w !! i = Some t →
  toggle_done i w
    = Returned () (with_tasks (alter (set_done (negb (done t))) i (tasks w)) w).
Proof. intros H. unfold toggle_done. run. by rewrite H. Qed.

Lemma delitem_valid w i :
  (i < length (tasks w))%nat →
  delitem i w = Returned () (with_tasks (delete i (tasks w)) w).
Proof.
  intros H. unfold delitem. destruct (Nat.ltb_spec i (length (tasks w))); [done | lia].
Qed.

Lemma toggle_task_failed w w' :
  get_display_index "Enter task number to toggle: " w = Returned None w' →
  toggle_task w = Returned () w'.
Proof. intros H. unfold toggle_task. run. by rewrite H. Qed.

Lemma delete_task_failed w w' :
  get_display_index "Enter task number to delete: " w = Returned None w' →
  delete_task w = Returned () w'.
Proof. intros H. unfold delete_task. run. by rewrite H. Qed.

(** On a number of the display, [toggle_task] is [toggle_done] at the index
    the mapping gives, and [delete_task] is [delitem] there. *)
Lemma toggle_task_found w w' i :
  get_display_index "Enter task number to toggle: " w = Returned (Some i) w' →
  toggle_task w = (toggle_done i;; print "Task status updated.") w'.
Proof. intros H. unfold toggle_task. run. by rewrite H. Qed.

Lemma delete_task_found w w' i :
  get_display_index "Enter task number to delete: " w = Returned (Some i) w' →
  delete_task w = (delitem i;; print "Task deleted.") w'.
Proof. intros H. unfold delete_task. run. by rewrite H. Qed.

(** *** Commands that only read and print *)

Lemma preserves_ret {A} (a : A) : preserves_tasks (mret a : io A).
Proof. by intros w. Qed.

Lemma preserves_bind {A B} (c : io A) (f : A → io B) :
  preserves_tasks c → (∀ a, preserves_tasks (f a)) → preserves_tasks (c ≫= f).
Proof.
  intros Hc Hf w. unfold mbind, io_bind. specialize (Hc w).
  destruct (c w) as [a w' | e w']; simpl in *; [| done].
  by rewrite Hf.
Qed.

Lemma preserves_print s : preserves_tasks (print s).
Proof. by intros w. Qed.

Lemma preserves_input s : preserves_tasks (input s).
Proof. intros w. unfold input. by destruct (stdin w). Qed.

Lemma preserves_get_tasks : preserves_tasks get_tasks.
Proof. by intros w. Qed.

Lemma preserves_for_each {A} (l : list A) (body : A → io unit) :
  (∀ x, preserves_tasks (body x)) → preserves_tasks (for_each l body).
Proof.
  intros Hbody. induction l as [|x l IH]; simpl.
  - apply preserves_ret.
  - apply preserves_bind; [apply Hbody | by intros _].
Qed.

Lemma preserves_print_menu : preserves_tasks print_menu.
Proof.
  unfold print_menu.
  repeat (apply preserves_bind; [apply preserves_print | intros _]).
  apply preserves_print.
Qed.

Lemma preserves_print_grouped_tasks : preserves_tasks print_grouped_tasks.
Proof.
  unfold print_grouped_tasks.
  apply preserves_bind; [apply preserves_get_tasks | intros ts].
  destruct (build_display_groups ts) as [undone done'].
  apply preserves_bind; [apply preserves_print | intros _].
  apply preserves_bind.
  - destruct undone; [apply preserves_print |].
    apply preserves_bind; [apply preserves_print | intros _].
    apply preserves_for_each. intros [i [j t]]. apply preserves_print.
  - intros _. destruct done'; [apply preserves_ret |].
    apply preserves_bind; [apply preserves_print | intros _].
    apply preserves_for_each. intros [i [j t]]. apply preserves_print.
Qed.

Lemma preserves_show_tasks : preserves_tasks show_tasks.
Proof.
  unfold show_tasks.
  apply preserves_bind; [apply preserves_get_tasks | intros ts].
  destruct ts; [apply preserves_print | apply preserves_print_grouped_tasks].
Qed.

Lemma preserves_report : preserves_tasks report.
Proof.
  unfold report.
  apply preserves_bind; [apply preserves_get_tasks | intros ts].
  apply preserves_print.
Qed.

Lemma preserves_search_tasks : preserves_tasks search_tasks.
Proof.
  unfold search_tasks.
  apply preserves_bind; [apply preserves_input | intros line].
  destruct (Text.is_empty _); [apply preserves_print |].
  apply preserves_bind; [apply preserves_get_tasks | intros ts].
  destruct (find_matching_tasks _ _); [apply preserves_print |].
  apply preserves_bind; [apply preserves_print | intros _].
  apply preserves_for_each. intros [i [j t]]. apply preserves_print.
Qed.

Lemma preserves_get_display_index prompt : preserves_tasks (get_display_index prompt).
Proof. intros w. apply get_display_index_tasks. Qed.

(** *** What the three mutating commands do to the store *)

Lemma input_priority_loop_spec lines w :
  match input_priority_loop lines w with
  | Returned p w' =>
      tasks w' = tasks w ∧ stdin w' `suffix_of` lines ∧ (p = 1 ∨ p = 2 ∨ p = 3)
  | Raised e w' => tasks w' = tasks w ∧ e = EOFError
  end.
Proof.
  revert w. induction lines as [|line rest IH]; intros w; simpl; [done |].
  destruct (Text.int ucd line) as [p|].
  - destruct (Z.eqb_spec p 1); simpl.
    { split; [done |]. split; [by apply suffix_cons_r | lia]. }
    destruct (Z.eqb_spec p 2); simpl.
    { split; [done |]. split; [by apply suffix_cons_r | lia]. }
    destruct (Z.eqb_spec p 3); simpl.
    { split; [done |]. split; [by apply suffix_cons_r | lia]. }
    match goal with |- context [input_priority_loop rest ?w0] =>
      specialize (IH w0); destruct (input_priority_loop rest w0) end;
      simpl in *; [| done].
    destruct IH as (? & ? & ?). split; [done |]. split; [by apply suffix_cons_r | done].
  - match goal with |- context [input_priority_loop rest ?w0] =>
      specialize (IH w0); destruct (input_priority_loop rest w0) end;
      simpl in *; [| done].
    destruct IH as (? & ? & ?). split; [done |]. split; [by apply suffix_cons_r | done].
Qed.

Lemma title_exists_true ts s :
  title_exists ts s = true ↔ ∃ t, t ∈ ts ∧ Text.lower ucd (title t) = Text.lower ucd s.
Proof.
  unfold title_exists. rewrite existsb_exists. split.
  - intros (t & Hin & Heq). exists t. split; [by apply list_elem_of_In |].
    by apply Text_eqb_eq.
  - intros (t & Hin & Heq). exists t. split; [by apply list_elem_of_In |].
    by apply Text_eqb_eq.
Qed.

Lemma title_exists_false ts s :
  title_exists ts s = false ↔ Text.lower ucd s ∉ (λ t, Text.lower ucd (title t)) <$> ts.
Proof.
  rewrite <- not_true_iff_false, title_exists_true, list_elem_of_fmap.
  split; intros Hn (t & H1 & H2); apply Hn; exists t; done.
Qed.

Section AddTask.
Variables (w : world) (line : str) (rest : list str).
Hypothesis Hin : stdin w = line :: rest.

Lemma add_task_empty :
  Text.strip line = "" →
  add_task w
    = Returned () (after w rest ["Task title: "; line_of "Title cannot be empty."]).
Proof.
  destruct w as [ts ins out]; simpl in *. subst ins. intros He.
  unfold add_task. run. rewrite He. run. by rewrite <- app_assoc.
Qed.

Lemma add_task_duplicate :
  Text.strip line ≠ "" →
  title_exists (tasks w) (Text.strip line) = true →
  add_task w
    = Returned ()
        (after w rest ["Task title: "; line_of "Task with this title already exists."]).
Proof.
  destruct w as [ts ins out]; simpl in *. subst ins. intros Hne Hex.
  unfold add_task. run. destruct (Text.strip line) eqn:He; [done |]. run.
  rewrite Hex. run. by rewrite <- app_assoc.
Qed.

Lemma add_task_fresh :
  Text.strip line ≠ "" →
  title_exists (tasks w) (Text.strip line) = false →
  add_task w
    = (priority' ← input_priority;
       ts ← get_tasks;
       set_tasks (ts ++ [mkTask (Text.strip line) false priority']);;
       print "Task added.") (after w rest ["Task title: "]).
Proof.
  destruct w as [ts ins out]; simpl in *. subst ins. intros Hne Hex.
  unfold add_task. run. destruct (Text.strip line) eqn:He; [done |]. run.
  by rewrite Hex.
Qed.
End AddTask.

Lemma add_task_store w :
  tasks (final_world (add_task w)) = tasks w ∨
  ∃ t, clean t ∧ done t = false ∧ title_exists (tasks w) (title t) = false ∧
       tasks (final_world (add_task w)) = tasks w ++ [t].
Proof.
  destruct (stdin w) as [|line rest] eqn:Hin.
  { left. destruct w as [ts ins out]; simpl in *. by subst ins. }
  destruct (decide (Text.strip line = "")) as [He | Hne].
  { left. by rewrite (add_task_empty w line rest Hin He). }
  destruct (title_exists (tasks w) (Text.strip line)) eqn:Hex.
  { left. by rewrite (add_task_duplicate w line rest Hin Hne Hex). }
  rewrite (add_task_fresh w line rest Hin Hne Hex).
  unfold input_priority. run.
  pose proof (input_priority_loop_spec rest
                {| tasks := tasks w; stdin := rest;
                   stdout := stdout w ++ ["Task title: "] |}) as Hp.
  destruct (input_priority_loop _ _) as [p w' | e w']; simpl in *.
  - destruct Hp as (Htasks & _ & Hp123). right.
    exists (mkTask (Text.strip line) false p). rewrite Htasks.
    repeat split; try done. apply strip_idemp.
  - left. by destruct Hp.
Qed.

Lemma toggle_task_store w :
  tasks (final_world (toggle_task w)) = tasks w ∨
  ∃ i b, tasks (final_world (toggle_task w)) = alter (set_done b) i (tasks w).
Proof.
  pose proof (get_display_index_tasks "Enter task number to toggle: " w) as Hsame.
  destruct (get_display_index "Enter task number to toggle: " w)
    as [[i|] w' | e w'] eqn:Hget; simpl in Hsame.
  - rewrite (toggle_task_found _ _ _ Hget). run.
    destruct (tasks w' !! i) as [t|] eqn:Ht.
    + rewrite (toggle_done_valid w' i t Ht). run. right. exists i, (negb (done t)).
      by rewrite Hsame.
    + left. unfold toggle_done. run. by rewrite Ht.
  - left. by rewrite (toggle_task_failed _ _ Hget).
  - left. unfold toggle_task. run. by rewrite Hget.
Qed.

Lemma delete_task_store w :
  tasks (final_world (delete_task w)) = tasks w ∨
  ∃ i, tasks (final_world (delete_task w)) = delete i (tasks w).
Proof.
  pose proof (get_display_index_tasks "Enter task number to delete: " w) as Hsame.
  destruct (get_display_index "Enter task number to delete: " w)
    as [[i|] w' | e w'] eqn:Hget; simpl in Hsame.
  - rewrite (delete_task_found _ _ _ Hget). run. unfold delitem.
    destruct (i <? length (tasks w'))%nat; run.
    + right. exists i. by rewrite Hsame.
    + by left.
  - left. by rewrite (delete_task_failed _ _ Hget).
  - left. unfold delete_task. run. by rewrite Hget.
Qed.

(** *** The invariant of the store *)

Lemma well_formed_nil : well_formed [].
Proof. split; [apply NoDup_nil_2 | constructor]. Qed.

Lemma well_formed_snoc ts t :
  well_formed ts → clean t → title_exists ts (title t) = false →
  well_formed (ts ++ [t]).
Proof.
  intros [Hnd Hcl] Ht Hfresh. split.
  - rewrite fmap_snoc. apply NoDup_app. split; [done |]. split.
    + intros x Hx Hx'. apply list_elem_of_singleton in Hx' as ->.
      by apply title_exists_false in Hfresh.
    + apply NoDup_singleton.
  - apply Forall_app. split; [done |]. by constructor.
Qed.

Lemma well_formed_alter ts i b :
  well_formed ts → well_formed (alter (set_done b) i ts).
Proof.
  intros [Hnd Hcl]. split.
  - rewrite (list_fmap_alter _ (set_done b) id).
    + by rewrite list_alter_id.
    + by apply Forall_true.
  - apply Forall_alter; [done |]. by intros t _ Ht.
Qed.

Lemma well_formed_delete ts i : well_formed ts → well_formed (delete i ts).
Proof.
  intros [Hnd Hcl]. split.
  - rewrite list_fmap_delete. eapply sublist_NoDup; [done | apply sublist_delete].
  - by apply Forall_delete.
Qed.

Lemma actions_well_formed choice action w :
  actions choice = Some action →
  well_formed (tasks w) → well_formed (tasks (final_world (action w))).
Proof.
  unfold actions. intros Hact Hwf.
  repeat case_match; simplify_eq.
  - destruct (add_task_store w) as [-> | (t & Hcl & _ & Hfresh & ->)]; [done |].
    by apply well_formed_snoc.
  - by rewrite preserves_show_tasks.
  - destruct (toggle_task_store w) as [-> | (i & b & ->)]; [done |].
    by apply well_formed_alter.
  - destruct (delete_task_store w) as [-> | (i & ->)]; [done |].
    by apply well_formed_delete.
  - by rewrite preserves_report.
  - by rewrite preserves_search_tasks.
Qed.

Lemma reachable_well_formed ts : reachable ts → well_formed ts.
Proof.
  induction 1 as [| ts choice action ins out _ IH Hact]; [apply well_formed_nil |].
  by apply (actions_well_formed choice action (mkWorld ts ins out)).
Qed.

Lemma well_formed_unique_titles ts : well_formed ts → unique_titles ts.
Proof.
  intros [Hnd _] i j ti tj Hi Hj Heq.
  apply (NoDup_lookup _ i j (Text.lower ucd (title ti)) Hnd).
  - by rewrite list_lookup_fmap, Hi.
  - by rewrite list_lookup_fmap, Hj, Heq.
Qed.

(** ** The display mapping *)

(** C1. The display mapping of a store of [n] tasks has length [n], is a
    permutation of the original indices [0..n-1], lists every index of an
    undone task before every index of a done task, and is the indices of the
    undone group followed by those of the done group, each in the order of
    [build_display_groups].  This holds for every store, the empty one
    included. *)
Theorem build_display_mapping_spec (ts : list Task) :
  let mapping := build_display_mapping ts in
  let groups := build_display_groups ts in
  length mapping = length ts ∧
  mapping ≡ₚ seq 0 (length ts) ∧
  (∀ a b i j ti tj,
      mapping !! a = Some i → mapping !! b = Some j →
      ts !! i = Some ti → ts !! j = Some tj →
      done ti = false → done tj = true → (a < b)%nat) ∧
  mapping = (fst <$> fst groups) ++ (fst <$> snd groups).
Proof.
  simpl. split; [apply length_build_display_mapping |].
  split; [apply build_display_mapping_perm |].
  split; [| apply build_display_mapping_groups].
  intros a b i j ti tj Ha Hb Hi Hj Hdi Hdj.
  rewrite build_display_mapping_groups in Ha, Hb.
  assert (a < length (fst <$> fst (build_display_groups ts)))%nat as Hlt.
  { destruct (Nat.lt_ge_cases a (length (fst <$> fst (build_display_groups ts))))
      as [? | Hge]; [done |].
    rewrite lookup_app_r in Ha by done.
    apply list_elem_of_lookup_2, list_elem_of_fmap in Ha as (p & -> & Hp).
    apply done_group in Hp as [Hp Hd]. congruence. }
  destruct (Nat.lt_ge_cases b (length (fst <$> fst (build_display_groups ts))))
    as [Hb' | ?]; [| lia].
  rewrite lookup_app_l in Hb by done.
  apply list_elem_of_lookup_2, list_elem_of_fmap in Hb as (p & -> & Hp).
  apply undone_group in Hp as [Hp Hd]. congruence.
Qed.

(** C2. In each of the two groups of [build_display_groups], priorities never
    decrease along the group, and two tasks of equal priority stand in the
    order of their original indices; every pair of a group is an index of
    the store together with the task stored there. *)
Theorem build_display_groups_priority_stable (ts : list Task) :
  let '(undone, done') := build_display_groups ts in
  (priority_stable undone ∧ from_store ts undone) ∧
  (priority_stable done' ∧ from_store ts done').
Proof.
  destruct (build_display_groups ts) as [undone done'] eqn:Hg.
  assert (undone = fst (build_display_groups ts)) as -> by by rewrite Hg.
  assert (done' = snd (build_display_groups ts)) as -> by by rewrite Hg.
  clear Hg. split; split.
  - apply key_then_priority_stable, StronglySorted_filter, sorted_indexed_order.
  - intros p Hp. by apply undone_group in Hp as [? _].
  - apply key_then_priority_stable, StronglySorted_filter, sorted_indexed_order.
  - intros p Hp. by apply done_group in Hp as [? _].
Qed.

(** C3. When the user enters the number [n] at the prompt of
    [get_display_index], an index is returned exactly when
    [1 <= n <= len(mapping)], and it is [mapping[n-1]]; for every other [n]
    the lookup returns [None], leaves the store alone and ends on an error
    line: [Invalid task number.] after reading the number, or, on the empty
    store (whose mapping is empty, so that every [n] is outside),
    [No tasks available.] before reading it. *)
Theorem get_display_index_resolves
    (prompt : str) (w : world) (line : str) (rest : list str) (n : Z) :
  stdin w = line :: rest →
  Text.int ucd line = Some n →
  let mapping := build_display_mapping (tasks w) in
  ((∃ i w', get_display_index prompt w = Returned (Some i) w')
     ↔ 1 ≤ n ≤ Z.of_nat (length mapping)) ∧
  (∀ i w', get_display_index prompt w = Returned (Some i) w' →
     mapping !! Z.to_nat (n - 1) = Some i ∧ w' = after w rest [prompt]) ∧
  (¬ (1 ≤ n ≤ Z.of_nat (length mapping)) →
     get_display_index prompt w
       = Returned None
           (match tasks w with
            | [] => after w (line :: rest) [line_of "No tasks available."]
            | _ => after w rest [prompt; line_of "Invalid task number."]
            end)).
Proof.
  intros Hin Hint mapping. split; [split |]; [| | split].
  - intros (i & w' & H).
    apply get_display_index_Some in H as (l' & r' & n' & Hin' & Hint' & Hn & _).
    rewrite Hin in Hin'. injection Hin' as <- <-.
    rewrite Hint in Hint'. by injection Hint' as <-.
  - intros Hn.
    assert (tasks w ≠ []) as Hne.
    { intros Hts. subst mapping. rewrite length_build_display_mapping, Hts in Hn.
      simpl in Hn. lia. }
    destruct (get_display_index_inside prompt w line rest Hne Hin n Hint Hn)
      as (i & _ & H).
    eauto.
  - intros i w' H.
    apply get_display_index_Some in H as (l' & r' & n' & Hin' & Hint' & _ & Hi & ->).
    rewrite Hin in Hin'. injection Hin' as <- <-.
    rewrite Hint in Hint'. by injection Hint' as <-.
  - intros Hn. destruct (tasks w) as [|t ts] eqn:Hts.
    + rewrite get_display_index_empty by done. by rewrite Hin.
    + assert (tasks w ≠ []) as Hne by congruence.
      subst mapping. rewrite <- Hts in Hn.
      exact (get_display_index_outside prompt w line rest Hne Hin n Hint Hn).
Qed.

(** ** Toggle and delete *)

(** C10. When the lookup of the display number fails (the store is empty, or
    the line read is no integer for [int], or the number read is outside
    [1..len(mapping)]), [toggle_task] and [delete_task] both return with the
    store exactly as it was. *)
Theorem failed_lookup_no_mutation (w : world) :
  (tasks w = [] ∨
   ∃ line rest, stdin w = line :: rest ∧
     (Text.int ucd line = None ∨
      ∃ n, Text.int ucd line = Some n ∧
           ¬ (1 ≤ n ≤ Z.of_nat (length (build_display_mapping (tasks w)))))) →
  (∃ w', toggle_task w = Returned () w' ∧ tasks w' = tasks w) ∧
  (∃ w', delete_task w = Returned () w' ∧ tasks w' = tasks w).
Proof.
  intros Hfail.
  assert (∀ prompt, ∃ w', get_display_index prompt w = Returned None w' ∧
                          tasks w' = tasks w) as Hnone.
  { intros prompt. destruct (tasks w) as [|t ts] eqn:Hts.
    - rewrite get_display_index_empty by done. eauto.
    - assert (tasks w ≠ []) as Hne by congruence.
      destruct Hfail as [? | (line & rest & Hin & [Hint | (n & Hint & Hn)])];
        [done | |].
      + rewrite (get_display_index_not_int prompt w line rest Hne Hin Hint). eauto.
      + rewrite <- Hts in Hn.
        rewrite (get_display_index_outside prompt w line rest Hne Hin n Hint Hn).
        eauto. }
  split.
  - destruct (Hnone "Enter task number to toggle: ") as (w' & H & Hw').
    exists w'. split; [by apply toggle_task_failed | done].
  - destruct (Hnone "Enter task number to delete: ") as (w' & H & Hw').
    exists w'. split; [by apply delete_task_failed | done].
Qed.

(** C9. At a valid original index [i], toggling twice puts [done] of the
    task at [i] back to what it was (the first toggle flips it), and the
    store has the same size after each of the two toggles; in fact the whole
    world is back to what it was. *)
Theorem toggle_done_twice (w : world) (i : nat) :
  (i < length (tasks w))%nat →
  ∃ w1 w2,
    toggle_done i w = Returned () w1 ∧
    toggle_done i w1 = Returned () w2 ∧
    length (tasks w1) = length (tasks w) ∧
    length (tasks w2) = length (tasks w) ∧
    done <$> tasks w1 !! i = negb <$> (done <$> tasks w !! i) ∧
    done <$> tasks w2 !! i = done <$> tasks w !! i ∧
    w2 = w.
Proof.
  intros Hi. apply lookup_lt_is_Some_2 in Hi as [t Ht].
  set (w1 := with_tasks (alter (set_done (negb (done t))) i (tasks w)) w).
  assert (tasks w1 !! i = Some (set_done (negb (done t)) t)) as Ht1.
  { simpl. by rewrite list_lookup_alter_eq, Ht. }
  assert (with_tasks (alter (set_done (negb (done (set_done (negb (done t)) t)))) i
                        (tasks w1)) w1 = w) as Hback.
  { destruct w as [ts ins out]. unfold with_tasks; simpl in *. f_equal.
    apply list_eq. intros j.
    destruct (decide (i = j)) as [<- | Hne].
    - rewrite !list_lookup_alter_eq, Ht. simpl. f_equal.
      destruct t as [tt [] pp]; reflexivity.
    - by rewrite !list_lookup_alter_ne. }
  exists w1, w. split; [by apply toggle_done_valid |].
  split; [by rewrite (toggle_done_valid w1 i _ Ht1), Hback |].
  split; [simpl; apply length_alter |]. split; [done |].
  split; [| done]. rewrite Ht1, Ht. reflexivity.
Qed.

(** C4, as the code has it.  Deleting at a valid display position [n] removes
    exactly the task at the original index [i] the mapping gives for [n]: the
    store loses that one task and is one shorter, the tasks before [i] keep
    their index and those after it move down by one.  The mapping of the new
    store is a permutation of [0..len-2]: it holds no index from [len-1] on,
    and it does hold [i] again whenever [i] was not the last index, now for
    the task that moved into that slot. *)
Theorem delete_task_removes
    (w : world) (line : str) (rest : list str) (n : Z) :
  stdin w = line :: rest →
  Text.int ucd line = Some n →
  1 ≤ n ≤ Z.of_nat (length (build_display_mapping (tasks w))) →
  ∃ i t,
    build_display_mapping (tasks w) !! Z.to_nat (n - 1) = Some i ∧
    tasks w !! i = Some t ∧
    delete_task w
      = Returned ()
          (with_tasks (delete i (tasks w))
             (after w rest ["Enter task number to delete: "; line_of "Task deleted."])) ∧
    tasks w ≡ₚ t :: delete i (tasks w) ∧
    length (delete i (tasks w)) = (length (tasks w) - 1)%nat ∧
    (∀ j, (j < i)%nat → delete i (tasks w) !! j = tasks w !! j) ∧
    (∀ j, (i ≤ j)%nat → delete i (tasks w) !! j = tasks w !! S j) ∧
    build_display_mapping (delete i (tasks w)) ≡ₚ seq 0 (length (tasks w) - 1) ∧
    (∀ j, j ∈ build_display_mapping (delete i (tasks w))
          ↔ (j < length (tasks w) - 1)%nat).
Proof.
  intros Hin Hint Hn.
  assert (tasks w ≠ []) as Hne.
  { intros Hts. rewrite length_build_display_mapping, Hts in Hn. simpl in Hn. lia. }
  destruct (get_display_index_inside "Enter task number to delete: "
              w line rest Hne Hin n Hint Hn) as (i & Hi & Hget).
  pose proof (build_display_mapping_lookup_lt _ _ _ Hi) as Hlt.
  destruct (lookup_lt_is_Some_2 (tasks w) i Hlt) as [t Ht].
  assert (length (delete i (tasks w)) = (length (tasks w) - 1)%nat) as Hlen.
  { apply length_delete. eauto. }
  exists i, t. split; [done |]. split; [done |]. split.
  { rewrite (delete_task_found _ _ _ Hget). run.
    rewrite delitem_valid by done. run. by rewrite <- app_assoc. }
  split; [by apply delete_Permutation |]. split; [done |].
  split; [intros j Hj; by apply list_lookup_delete_lt |].
  split; [intros j Hj; by apply list_lookup_delete_ge |].
  split.
  - rewrite <- Hlen. apply build_display_mapping_perm.
  - intros j. rewrite build_display_mapping_perm, Hlen, elem_of_seq. lia.
Qed.

(** The toggle command at a valid display number is [toggle_done] at the
    original index the mapping gives. *)
Lemma toggle_task_toggles
    (w : world) (line : str) (rest : list str) (n : Z) :
  stdin w = line :: rest →
  Text.int ucd line = Some n →
  1 ≤ n ≤ Z.of_nat (length (build_display_mapping (tasks w))) →
  ∃ i t,
    build_display_mapping (tasks w) !! Z.to_nat (n - 1) = Some i ∧
    tasks w !! i = Some t ∧
    toggle_task w
      = Returned ()
          (with_tasks (alter (set_done (negb (done t))) i (tasks w))
             (after w rest ["Enter task number to toggle: ";
                            line_of "Task status updated."])).
Proof.
  intros Hin Hint Hn.
  assert (tasks w ≠ []) as Hne.
  { intros Hts. rewrite length_build_display_mapping, Hts in Hn. simpl in Hn. lia. }
  destruct (get_display_index_inside "Enter task number to toggle: "
              w line rest Hne Hin n Hint Hn) as (i & Hi & Hget).
  pose proof (build_display_mapping_lookup_lt _ _ _ Hi) as Hlt.
  destruct (lookup_lt_is_Some_2 (tasks w) i Hlt) as [t Ht].
  exists i, t. split; [done |]. split; [done |].
  rewrite (toggle_task_found _ _ _ Hget). run.
  rewrite (toggle_done_valid _ i t) by done. run. by rewrite <- app_assoc.
Qed.

(** X20. Two toggle commands whose numbers both stand for the original index
    [i], each in the display of its moment, leave the store as it was. *)
Lemma toggle_task_twice
    (w : world) (l1 l2 : str) (rest : list str) (n1 n2 : Z) (i : nat) (t : Task) :
  stdin w = l1 :: l2 :: rest →
  Text.int ucd l1 = Some n1 → Text.int ucd l2 = Some n2 →
  1 ≤ n1 ≤ Z.of_nat (length (tasks w)) → 1 ≤ n2 ≤ Z.of_nat (length (tasks w)) →
  tasks w !! i = Some t →
  build_display_mapping (tasks w) !! Z.to_nat (n1 - 1) = Some i →
  build_display_mapping (alter (set_done (negb (done t))) i (tasks w))
    !! Z.to_nat (n2 - 1) = Some i →
  ∃ w1 w2,
    toggle_task w = Returned () w1 ∧ toggle_task w1 = Returned () w2 ∧
    length (tasks w1) = length (tasks w) ∧ tasks w2 = tasks w ∧ stdin w2 = rest.
Proof.
  intros Hin Hl1 Hl2 Hn1 Hn2 Ht Hm1 Hm2.
  destruct (toggle_task_toggles w l1 (l2 :: rest) n1 Hin Hl1)
    as (i1 & t1 & Hi1 & Ht1 & Hrun1);
    [by rewrite length_build_display_mapping |].
  assert (i1 = i) as -> by congruence. assert (t1 = t) as -> by congruence.
  eexists. rewrite Hrun1.
  set (w1 := with_tasks _ _).
  assert (tasks w1 = alter (set_done (negb (done t))) i (tasks w)) as Htasks1 by done.
  destruct (toggle_task_toggles w1 l2 rest n2 eq_refl Hl2)
    as (i2 & t2 & Hi2 & Ht2 & Hrun2).
  { rewrite length_build_display_mapping. subst w1. simpl. by rewrite length_alter. }
  rewrite Htasks1 in Hi2, Ht2, Hrun2.
  assert (i2 = i) as -> by congruence.
  rewrite list_lookup_alter_eq, Ht in Ht2. injection Ht2 as <-.
  eexists. split; [done |]. split; [exact Hrun2 |].
  split; [simpl; by rewrite length_alter |]. split; [| done].
  simpl. apply list_eq. intros j. destruct (decide (i = j)) as [<- | Hne].
  - rewrite !list_lookup_alter_eq, Ht. simpl. f_equal.
    destruct t as [tt [] pp]; reflexivity.
  - by rewrite !list_lookup_alter_ne.
Qed.

(** ** Adding tasks *)



(** C8. A title entered that is empty or made of whitespace only (of code
    points for which [str.isspace] holds, those outside ASCII included) is
    refused with the empty-title line, and the store is unchanged. *)
Theorem add_task_blank_refused (w : world) (line : str) (rest : list str) :
  stdin w = line :: rest →
  Forall (λ c, Text.isspace c = true) line →
  add_task w
    = Returned () (after w rest ["Task title: "; line_of "Title cannot be empty."]).
Proof.
  intros Hin Hblank. apply (add_task_empty w line rest Hin).
  by apply strip_all_space.
Qed.

(** ** Searching *)

Lemma for_each_print {A} (l : list A) (body : A → io unit) (g : A → str) w :
  (∀ x, body x = print (g x)) →
  for_each l body w = Returned () (after w (stdin w) (line_of <$> (g <$> l))).
Proof.
  intros Hbody. revert w. induction l as [|x l IH]; intros w; simpl.
  - unfold after. rewrite app_nil_r. by destruct w.
  - run. rewrite Hbody. run. rewrite IH. run. by rewrite <- app_assoc.
Qed.

Lemma find_matching_tasks_elem ts keyword i t :
  (i, t) ∈ find_matching_tasks ts keyword
    ↔ ts !! i = Some t ∧ Text.contains keyword (Text.lower ucd (title t)) = true.
Proof.
  unfold find_matching_tasks. rewrite sorted_perm, elem_of_filter. simpl.
  by rewrite elem_of_enumerate.
Qed.

Lemma find_matching_tasks_NoDup ts keyword : NoDup (find_matching_tasks ts keyword).
Proof.
  unfold find_matching_tasks. rewrite sorted_perm.
  apply NoDup_ListNoDup, List.NoDup_filter, NoDup_ListNoDup, (NoDup_fmap_1 fst).
  unfold enumerate. rewrite fst_enumerate_from. apply NoDup_seq.
Qed.

Lemma find_matching_tasks_order ts keyword :
  priority_stable (find_matching_tasks ts keyword).
Proof.
  apply key_then_priority_stable, sorted_stable, StronglySorted_filter,
    enumerate_from_sorted.
Qed.

(** C6, as the code has it.  [search_tasks] looks for the line read after it
    is stripped and put to lower case.  For every keyword given to it,
    [find_matching_tasks] returns exactly the pairs of an original index and
    its task whose title in lower case contains that keyword as it stands,
    each once, with priorities never decreasing and equal priorities in the
    order of the original indices, whatever [done] says.  [search_tasks]
    prints [Keyword cannot be empty.] and no task when the keyword it made
    is empty, and else the lines of what [find_matching_tasks] returns for
    it. *)
Theorem search_tasks_spec (w : world) (line : str) (rest : list str) :
  stdin w = line :: rest →
  let keyword := Text.lower ucd (Text.strip line) in
  (∀ kw,
     let found := find_matching_tasks (tasks w) kw in
     (∀ i t, (i, t) ∈ found
             ↔ tasks w !! i = Some t ∧ Text.contains kw (Text.lower ucd (title t)) = true) ∧
     NoDup found ∧ priority_stable found) ∧
  (∀ t, ci_contains (Text.strip line) (title t)
        = Text.contains keyword (Text.lower ucd (title t))) ∧
  search_tasks w
    = Returned ()
        (after w rest ("Enter keyword to search: " :: search_report (tasks w) keyword)).
Proof.
  intros Hin keyword. split; [| split].
  - intros kw. simpl. split; [intros i t; apply find_matching_tasks_elem |].
    split; [apply find_matching_tasks_NoDup | apply find_matching_tasks_order].
  - intros t. unfold ci_contains. by subst keyword.
  - destruct w as [ts ins out]; simpl in *. subst ins.
    unfold search_tasks, search_report. run. fold keyword.
    destruct (Text.is_empty keyword); run; [by rewrite <- app_assoc |].
    destruct (find_matching_tasks ts keyword) as [|p found] eqn:Hfound;
      cbn -[for_each enumerate_from]; [by rewrite <- app_assoc |].
    rewrite (for_each_print _ _ (λ '(idx, (_, task)), format_task_line idx task))
      by (by intros [idx [j task]]).
    unfold after. simpl. f_equal. f_equal. rewrite <- !app_assoc. simpl.
    do 3 f_equal. f_equal; [by destruct p as [j task] |].
    rewrite <- list_fmap_compose. apply list_fmap_ext.
    by intros ? [idx [j' task']] ?.
Qed.

(** ** The loop of [main] *)

Lemma main_round_reachable w :
  reachable (tasks w) → reachable (tasks (final_world (main_round w))).
Proof.
  intros Hreach. unfold main_round.
  pose proof (preserves_print_menu w) as Hmenu.
  unfold mbind at 1, io_bind at 1.
  destruct (print_menu w) as [[] w1 | e w1]; simpl in Hmenu; [| simpl; by rewrite Hmenu].
  rewrite <- Hmenu in Hreach. clear Hmenu w.
  pose proof (preserves_input "Select an option (0-6): " w1) as Hinput.
  unfold mbind at 1, io_bind at 1.
  destruct (input _ w1) as [line w2 | e w2]; simpl in Hinput; [| simpl; by rewrite Hinput].
  rewrite <- Hinput in Hreach. clear Hinput w1.
  destruct (Text.int ucd line) as [choice|]; [| done].
  destruct (choice =? 0); [done |].
  destruct (actions choice) as [action|] eqn:Hact; [| done].
  unfold mbind, io_bind.
  destruct w2 as [ts ins out]; simpl in Hreach.
  pose proof (reachable_action ts choice action ins out Hreach Hact) as Hnext.
  by destruct (action _).
Qed.

(** Whatever is typed and however long it runs, [main] keeps the store
    among the reachable ones. *)
Lemma main_reachable fuel w :
  reachable (tasks w) → reachable (tasks (final_world (main fuel w))).
Proof.
  revert w. induction fuel as [|fuel IH]; intros w Hreach; simpl; [done |].
  apply main_round_reachable in Hreach.
  unfold mbind, io_bind. destruct (main_round w) as [[] w' | e w']; simpl in *.
  - by apply IH.
  - done.
  - done.
Qed.

(** ** The scenarios of the specification *)

(** ** Further properties of the commands *)

Lemma input_priority_loop_skips (bad : list str) (tail : list str) (w : world) :
  Forall (λ l, accepted_priority l = None) bad →
  stdin w = bad ++ tail →
  input_priority_loop (bad ++ tail) w
    = input_priority_loop tail (after w tail (bad ≫= priority_retry)).
Proof.
  intros Hbad. revert w. induction Hbad as [|l bad Hl _ IH]; intros w Hin.
  - destruct w as [ts ins out]; simpl in *. subst ins.
    unfold after; simpl. by rewrite app_nil_r.
  - simpl. unfold accepted_priority in Hl.
    destruct (Text.int ucd l) as [p|] eqn:Hint.
    + destruct ((p =? 1) || (p =? 2) || (p =? 3)); [done |].
      rewrite IH by done. unfold after, write, priority_retry, line_of; simpl.
      rewrite ?Hint. by rewrite <- !app_assoc.
    + rewrite IH by done. unfold after, write, priority_retry, line_of; simpl.
      rewrite ?Hint. by rewrite <- !app_assoc.
Qed.

(** X1. [input_priority] asks again for every line that is no integer or an
    integer other than 1, 2, 3, writing its complaint each time, and returns
    the first priority it can accept, with the lines after it still to be
    read; when no line is acceptable it ends in [EOFError] with the input
    used up.  The store is not touched. *)
Theorem input_priority_first_accepted (w : world) (bad : list str) :
  Forall (λ l, accepted_priority l = None) bad →
  (∀ good rest p,
     stdin w = bad ++ good :: rest → accepted_priority good = Some p →
     (p = 1 ∨ p = 2 ∨ p = 3) ∧
     input_priority w
       = Returned p
           (after w rest ((bad ≫= priority_retry)
                            ++ ["Enter priority (1=High, 2=Medium, 3=Low): "]))) ∧
  (stdin w = bad →
     input_priority w
       = Raised EOFError
           (after w [] ((bad ≫= priority_retry)
                          ++ ["Enter priority (1=High, 2=Medium, 3=Low): "]))).
Proof.
  intros Hbad. split.
  - intros good rest p Hin Hgood. unfold input_priority. rewrite Hin.
    rewrite input_priority_loop_skips by done. simpl.
    unfold accepted_priority in Hgood. destruct (Text.int ucd good) as [q|]; [| done].
    destruct (Z.eqb_spec q 1); simpl in *.
    { injection Hgood as <-. split; [lia |].
      unfold after, write; simpl. by rewrite <- app_assoc. }
    destruct (Z.eqb_spec q 2); simpl in *.
    { injection Hgood as <-. split; [lia |].
      unfold after, write; simpl. by rewrite <- app_assoc. }
    destruct (Z.eqb_spec q 3); simpl in *; [| done].
    injection Hgood as <-. split; [lia |].
    unfold after, write; simpl. by rewrite <- app_assoc.
  - intros Hin. unfold input_priority. rewrite Hin.
    rewrite <- (app_nil_r bad) at 1.
    rewrite input_priority_loop_skips by (by rewrite ?app_nil_r).
    simpl. unfold after, write; simpl. by rewrite <- app_assoc.
Qed.

(** X2. A title that is not empty once stripped and not yet in the store up
    to case is added whatever was typed before an acceptable priority: the
    new task is put at the end with the stripped title, not done and with
    that priority, and the tasks already there keep their place. *)
Theorem add_task_appends
    (w : world) (line : str) (bad : list str) (good : str)
    (rest : list str) (p : Z) :
  stdin w = line :: bad ++ good :: rest →
  Text.strip line ≠ "" →
  title_exists (tasks w) (Text.strip line) = false →
  Forall (λ l, accepted_priority l = None) bad →
  accepted_priority good = Some p →
  add_task w
    = Returned ()
        (with_tasks (tasks w ++ [mkTask (Text.strip line) false p])
           (after w rest
              ("Task title: " :: (bad ≫= priority_retry)
                 ++ ["Enter priority (1=High, 2=Medium, 3=Low): ";
                     line_of "Task added."]))).
Proof.
  intros Hin Hne Hfresh Hbad Hgood.
  rewrite (add_task_fresh w line (bad ++ good :: rest) Hin Hne Hfresh).
  unfold mbind at 1, io_bind at 1.
  destruct (input_priority_first_accepted (after w (bad ++ good :: rest) ["Task title: "])
              bad Hbad) as [Hret _].
  destruct (Hret good rest p eq_refl Hgood) as [_ ->].
  run. f_equal. f_equal. by rewrite <- !app_assoc.
Qed.


(** X4. Every task of a store the program can reach has a title that is
    stripped and not empty, and a priority among 1, 2, 3. *)
Theorem reachable_tasks_clean (ts : list Task) (t : Task) :
  reachable ts → t ∈ ts →
  Text.strip (title t) = title t ∧ title t ≠ "" ∧
  (priority t = 1 ∨ priority t = 2 ∨ priority t = 3).
Proof.
  intros Hreach Ht. apply reachable_well_formed in Hreach as [_ Hcl].
  rewrite Forall_forall in Hcl. by apply Hcl.
Qed.

(** X5. Showing, reporting and searching never change the store, whatever
    the store and the input are and however the command ends. *)
Theorem read_only_commands (w : world) :
  tasks (final_world (show_tasks w)) = tasks w ∧
  tasks (final_world (report w)) = tasks w ∧
  tasks (final_world (search_tasks w)) = tasks w.
Proof.
  split; [apply preserves_show_tasks |].
  split; [apply preserves_report | apply preserves_search_tasks].
Qed.

(** *** How the commands end and what they read *)

Lemma eof_ret {A} (a : A) : fails_only_at_eof (mret a : io A).
Proof. by intros w e w'. Qed.

Lemma eof_bind {A B} (c : io A) (f : A → io B) :
  fails_only_at_eof c → (∀ a, fails_only_at_eof (f a)) → fails_only_at_eof (c ≫= f).
Proof.
  intros Hc Hf w e w'. unfold mbind, io_bind.
  destruct (c w) as [a w1 | e1 w1] eqn:Hcw.
  - apply Hf.
  - intros [= <- <-]. by apply (Hc w).
Qed.

Lemma eof_print s : fails_only_at_eof (print s).
Proof. by intros w e w'. Qed.

Lemma eof_get_tasks : fails_only_at_eof get_tasks.
Proof. by intros w e w'. Qed.

Lemma eof_set_tasks ts : fails_only_at_eof (set_tasks ts).
Proof. by intros w e w'. Qed.

Lemma eof_input s : fails_only_at_eof (input s).
Proof.
  intros w e w'. unfold input. destruct (stdin w) eqn:Hin; [| done].
  intros [= <- <-]. by simpl.
Qed.

Lemma eof_for_each {A} (l : list A) (body : A → io unit) :
  (∀ x, fails_only_at_eof (body x)) → fails_only_at_eof (for_each l body).
Proof.
  intros Hbody. induction l as [|x l IH]; simpl.
  - apply eof_ret.
  - apply eof_bind; [apply Hbody | by intros _].
Qed.

Lemma input_priority_loop_end lines w :
  stdin w = lines →
  match input_priority_loop lines w with
  | Returned _ w' => stdin w' `suffix_of` lines
  | Raised e w' => e = EOFError ∧ stdin w' = []
  end.
Proof.
  revert w. induction lines as [|line rest IH]; intros w Hin; simpl; [done |].
  assert (∀ w0, stdin w0 = rest →
            match input_priority_loop rest w0 with
            | Returned _ w' => stdin w' `suffix_of` line :: rest
            | Raised e w' => e = EOFError ∧ stdin w' = []
            end) as Hnext.
  { intros w0 Hw0. specialize (IH w0 Hw0).
    destruct (input_priority_loop rest w0); [by apply suffix_cons_r | done]. }
  destruct (Text.int ucd line) as [p|]; [| by apply Hnext].
  destruct ((p =? 1) || (p =? 2) || (p =? 3)); [| by apply Hnext].
  simpl. by apply suffix_cons_r.
Qed.

Lemma eof_input_priority : fails_only_at_eof input_priority.
Proof.
  intros w e w' H. unfold input_priority in H.
  pose proof (input_priority_loop_end (stdin w) w eq_refl) as Hend.
  by rewrite H in Hend.
Qed.

Lemma eof_add_task : fails_only_at_eof add_task.
Proof.
  unfold add_task. apply eof_bind; [apply eof_input | intros line].
  destruct (Text.is_empty _); [apply eof_print |].
  apply eof_bind; [apply eof_get_tasks | intros ts].
  destruct (title_exists _ _); [apply eof_print |].
  apply eof_bind; [apply eof_input_priority | intros p].
  apply eof_bind; [apply eof_get_tasks | intros ts'].
  apply eof_bind; [apply eof_set_tasks | intros _]. apply eof_print.
Qed.

Lemma eof_get_display_index prompt : fails_only_at_eof (get_display_index prompt).
Proof.
  intros w e w' H.
  destruct (tasks w) as [|t ts] eqn:Hts.
  { by rewrite get_display_index_empty in H. }
  assert (tasks w ≠ []) as Hne by congruence.
  destruct (stdin w) as [|line rest] eqn:Hin.
  { rewrite get_display_index_eof in H by done. by injection H as <- <-. }
  destruct (Text.int ucd line) as [n|] eqn:Hint.
  - destruct (decide (1 ≤ n ≤ Z.of_nat (length (build_display_mapping (tasks w)))))
      as [Hn | Hn].
    + destruct (get_display_index_inside prompt w line rest Hne Hin n Hint Hn)
        as (i & _ & Heq). by rewrite Heq in H.
    + by rewrite (get_display_index_outside prompt w line rest Hne Hin n Hint Hn) in H.
  - by rewrite (get_display_index_not_int prompt w line rest Hne Hin Hint) in H.
Qed.

Lemma eof_toggle_task : fails_only_at_eof toggle_task.
Proof.
  intros w e w' H.
  destruct (get_display_index "Enter task number to toggle: " w)
    as [[i|] w1 | e1 w1] eqn:Hget.
  - rewrite (toggle_task_found _ _ _ Hget) in H.
    apply get_display_index_Some in Hget as (l & r & n & _ & _ & _ & Hi & ->).
    apply build_display_mapping_lookup_lt, lookup_lt_is_Some_2 in Hi as [t Ht].
    unfold mbind, io_bind in H.
    by rewrite (toggle_done_valid (after w r _) i t Ht) in H.
  - by rewrite (toggle_task_failed _ _ Hget) in H.
  - unfold toggle_task, mbind, io_bind in H. rewrite Hget in H.
    injection H as <- <-. exact (eof_get_display_index _ w _ _ Hget).
Qed.

Lemma eof_delete_task : fails_only_at_eof delete_task.
Proof.
  intros w e w' H.
  destruct (get_display_index "Enter task number to delete: " w)
    as [[i|] w1 | e1 w1] eqn:Hget.
  - rewrite (delete_task_found _ _ _ Hget) in H.
    apply get_display_index_Some in Hget as (l & r & n & _ & _ & _ & Hi & ->).
    apply build_display_mapping_lookup_lt in Hi.
    unfold mbind, io_bind in H.
    by rewrite (delitem_valid (after w r _) i Hi) in H.
  - by rewrite (delete_task_failed _ _ Hget) in H.
  - unfold delete_task, mbind, io_bind in H. rewrite Hget in H.
    injection H as <- <-. exact (eof_get_display_index _ w _ _ Hget).
Qed.

Lemma eof_print_grouped_tasks : fails_only_at_eof print_grouped_tasks.
Proof.
  unfold print_grouped_tasks.
  apply eof_bind; [apply eof_get_tasks | intros ts].
  destruct (build_display_groups ts) as [undone done'].
  apply eof_bind; [apply eof_print | intros _].
  apply eof_bind.
  - destruct undone; [apply eof_print |].
    apply eof_bind; [apply eof_print | intros _].
    apply eof_for_each. intros [i [j t]]. apply eof_print.
  - intros _. destruct done'; [apply eof_ret |].
    apply eof_bind; [apply eof_print | intros _].
    apply eof_for_each. intros [i [j t]]. apply eof_print.
Qed.

Lemma eof_show_tasks : fails_only_at_eof show_tasks.
Proof.
  unfold show_tasks. apply eof_bind; [apply eof_get_tasks | intros ts].
  destruct ts; [apply eof_print | apply eof_print_grouped_tasks].
Qed.

Lemma eof_report : fails_only_at_eof report.
Proof.
  unfold report. apply eof_bind; [apply eof_get_tasks | intros ts]. apply eof_print.
Qed.

Lemma eof_search_tasks : fails_only_at_eof search_tasks.
Proof.
  unfold search_tasks. apply eof_bind; [apply eof_input | intros line].
  destruct (Text.is_empty _); [apply eof_print |].
  apply eof_bind; [apply eof_get_tasks | intros ts].
  destruct (find_matching_tasks _ _); [apply eof_print |].
  apply eof_bind; [apply eof_print | intros _].
  apply eof_for_each. intros [i [j t]]. apply eof_print.
Qed.

Lemma eof_print_menu : fails_only_at_eof print_menu.
Proof.
  unfold print_menu.
  repeat (apply eof_bind; [apply eof_print | intros _]). apply eof_print.
Qed.

Lemma eof_actions choice action :
  actions choice = Some action → fails_only_at_eof action.
Proof.
  unfold actions. intros Hact. repeat case_match; simplify_eq.
  - apply eof_add_task.
  - apply eof_show_tasks.
  - apply eof_toggle_task.
  - apply eof_delete_task.
  - apply eof_report.
  - apply eof_search_tasks.
Qed.

Lemma eof_main_round : fails_only_at_eof main_round.
Proof.
  unfold main_round. apply eof_bind; [apply eof_print_menu | intros _].
  apply eof_bind; [apply eof_input | intros line].
  destruct (Text.int ucd line) as [choice|].
  - destruct (choice =? 0).
    + apply eof_bind; [apply eof_print | intros _; apply eof_ret].
    + destruct (actions choice) as [action|] eqn:Hact.
      * apply eof_bind; [by eapply eof_actions | intros _; apply eof_ret].
      * apply eof_bind; [apply eof_print | intros _; apply eof_ret].
  - apply eof_bind; [apply eof_print | intros _; apply eof_ret].
Qed.

Lemma forward_ret {A} (a : A) : reads_forward (mret a : io A).
Proof. by intros w. Qed.

Lemma forward_bind {A B} (c : io A) (f : A → io B) :
  reads_forward c → (∀ a, reads_forward (f a)) → reads_forward (c ≫= f).
Proof.
  intros Hc Hf w. unfold mbind, io_bind. specialize (Hc w).
  destruct (c w) as [a w1 | e1 w1]; simpl in *; [| done].
  by etrans; [apply Hf |].
Qed.

Lemma forward_print s : reads_forward (print s).
Proof. by intros w. Qed.

Lemma forward_get_tasks : reads_forward get_tasks.
Proof. by intros w. Qed.

Lemma forward_set_tasks ts : reads_forward (set_tasks ts).
Proof. by intros w. Qed.

Lemma forward_getitem {A} (l : list A) i : reads_forward (getitem l i).
Proof. intros w. unfold getitem. by destruct (l !! i). Qed.

Lemma forward_input s : reads_forward (input s).
Proof.
  intros [ts ins out]. unfold input; simpl.
  destruct ins as [|l r]; simpl; [done | by apply suffix_cons_r].
Qed.

Lemma forward_for_each {A} (l : list A) (body : A → io unit) :
  (∀ x, reads_forward (body x)) → reads_forward (for_each l body).
Proof.
  intros Hbody. induction l as [|x l IH]; simpl.
  - apply forward_ret.
  - apply forward_bind; [apply Hbody | by intros _].
Qed.

Lemma forward_input_priority : reads_forward input_priority.
Proof.
  intros w. unfold input_priority.
  pose proof (input_priority_loop_end (stdin w) w eq_refl) as Hend.
  destruct (input_priority_loop _ _) as [p w' | e w']; simpl; [done |].
  destruct Hend as [_ ->]. apply suffix_nil.
Qed.

Lemma forward_add_task : reads_forward add_task.
Proof.
  unfold add_task. apply forward_bind; [apply forward_input | intros line].
  destruct (Text.is_empty _); [apply forward_print |].
  apply forward_bind; [apply forward_get_tasks | intros ts].
  destruct (title_exists _ _); [apply forward_print |].
  apply forward_bind; [apply forward_input_priority | intros p].
  apply forward_bind; [apply forward_get_tasks | intros ts'].
  apply forward_bind; [apply forward_set_tasks | intros _]. apply forward_print.
Qed.

Lemma forward_get_display_index prompt : reads_forward (get_display_index prompt).
Proof.
  unfold get_display_index. apply forward_bind; [apply forward_get_tasks | intros ts].
  destruct ts as [|t ts].
  { apply forward_bind; [apply forward_print | intros _; apply forward_ret]. }
  apply forward_bind; [apply forward_input | intros line].
  destruct (Text.int ucd line) as [idx|].
  - destruct (_ && _).
    + apply forward_bind; [apply forward_getitem | intros orig; apply forward_ret].
    + apply forward_bind; [apply forward_print | intros _; apply forward_ret].
  - apply forward_bind; [apply forward_print | intros _; apply forward_ret].
Qed.

Lemma forward_toggle_task : reads_forward toggle_task.
Proof.
  unfold toggle_task.
  apply forward_bind; [apply forward_get_display_index | intros [i|]];
    [| apply forward_ret].
  apply forward_bind; [| intros _; apply forward_print].
  unfold toggle_done. apply forward_bind; [apply forward_get_tasks | intros ts].
  apply forward_bind; [apply forward_getitem | intros t]. apply forward_set_tasks.
Qed.

Lemma forward_delete_task : reads_forward delete_task.
Proof.
  unfold delete_task.
  apply forward_bind; [apply forward_get_display_index | intros [i|]];
    [| apply forward_ret].
  apply forward_bind; [| intros _; apply forward_print].
  intros w. unfold delitem. by destruct (_ <? _)%nat.
Qed.

Lemma forward_print_grouped_tasks : reads_forward print_grouped_tasks.
Proof.
  unfold print_grouped_tasks.
  apply forward_bind; [apply forward_get_tasks | intros ts].
  destruct (build_display_groups ts) as [undone done'].
  apply forward_bind; [apply forward_print | intros _].
  apply forward_bind.
  - destruct undone; [apply forward_print |].
    apply forward_bind; [apply forward_print | intros _].
    apply forward_for_each. intros [i [j t]]. apply forward_print.
  - intros _. destruct done'; [apply forward_ret |].
    apply forward_bind; [apply forward_print | intros _].
    apply forward_for_each. intros [i [j t]]. apply forward_print.
Qed.

Lemma forward_show_tasks : reads_forward show_tasks.
Proof.
  unfold show_tasks. apply forward_bind; [apply forward_get_tasks | intros ts].
  destruct ts; [apply forward_print | apply forward_print_grouped_tasks].
Qed.

Lemma forward_report : reads_forward report.
Proof.
  unfold report. apply forward_bind; [apply forward_get_tasks | intros ts].
  apply forward_print.
Qed.

Lemma forward_search_tasks : reads_forward search_tasks.
Proof.
  unfold search_tasks. apply forward_bind; [apply forward_input | intros line].
  destruct (Text.is_empty _); [apply forward_print |].
  apply forward_bind; [apply forward_get_tasks | intros ts].
  destruct (find_matching_tasks _ _); [apply forward_print |].
  apply forward_bind; [apply forward_print | intros _].
  apply forward_for_each. intros [i [j t]]. apply forward_print.
Qed.

Lemma forward_print_menu : reads_forward print_menu.
Proof.
  unfold print_menu.
  repeat (apply forward_bind; [apply forward_print | intros _]). apply forward_print.
Qed.

Lemma forward_actions choice action :
  actions choice = Some action → reads_forward action.
Proof.
  unfold actions. intros Hact. repeat case_match; simplify_eq.
  - apply forward_add_task.
  - apply forward_show_tasks.
  - apply forward_toggle_task.
  - apply forward_delete_task.
  - apply forward_report.
  - apply forward_search_tasks.
Qed.

(** X6. A command of the menu never ends in [IndexError]: it returns, or it
    ends in [EOFError] with nothing left to read; and it only takes lines
    from the front of the input, so that what is left afterwards is an end
    piece of what was there. *)
Theorem actions_end_orderly (choice : Z) (action : io unit) (w : world) :
  actions choice = Some action →
  stdin (final_world (action w)) `suffix_of` stdin w ∧
  ((∃ w', action w = Returned () w') ∨
   (∃ w', action w = Raised EOFError w' ∧ stdin w' = [])).
Proof.
  intros Hact. split; [by apply (forward_actions choice) |].
  destruct (action w) as [[] w' | e w'] eqn:Hrun; [left; eauto | right].
  destruct (eof_actions choice action Hact w e w' Hrun) as [-> Hin]. eauto.
Qed.

(** *** The loop *)

Lemma print_menu_writes w :
  ∃ menu, print_menu w = Returned () (after w (stdin w) menu).
Proof.
  eexists. unfold print_menu. run. unfold after. simpl.
  rewrite <- !app_assoc. simpl. reflexivity.
Qed.

Lemma forward_after_choice line :
  reads_forward
    (match Text.int ucd line with
     | None => print "Please enter a valid number.";; mret true
     | Some choice =>
         if choice =? 0 then print "Exiting. Goodbye!";; mret false
         else
           match actions choice with
           | Some action => action;; mret true
           | None => print "Invalid option. Try again.";; mret true
           end
     end : io bool).
Proof.
  destruct (Text.int ucd line) as [choice|].
  - destruct (choice =? 0).
    + apply forward_bind; [apply forward_print | intros _; apply forward_ret].
    + destruct (actions choice) as [action|] eqn:Hact.
      * apply forward_bind; [by eapply forward_actions | intros _; apply forward_ret].
      * apply forward_bind; [apply forward_print | intros _; apply forward_ret].
  - apply forward_bind; [apply forward_print | intros _; apply forward_ret].
Qed.

Lemma main_round_consumes w b w' :
  main_round w = Returned b w' → (length (stdin w') < length (stdin w))%nat.
Proof.
  unfold main_round. destruct (print_menu_writes w) as [menu Hmenu].
  unfold mbind at 1, io_bind at 1. rewrite Hmenu.
  unfold mbind at 1, io_bind at 1, input. simpl.
  destruct (stdin w) as [|line rest]; [done |]. simpl.
  intros Hrun. pose proof (forward_after_choice line) as Hfw.
  match type of Hrun with ?c ?w0 = _ => specialize (Hfw w0); rewrite Hrun in Hfw end.
  simpl in Hfw. apply suffix_length in Hfw. lia.
Qed.

(** X7. The loop of [main] comes to an end on every input: allowed more
    rounds than there are lines to read, it stops at the exit command, or it
    ends in [EOFError] with the input used up.  It never ends in
    [IndexError], and the rounds are never what stops it. *)
Theorem main_ends (fuel : nat) (w : world) :
  (length (stdin w) < fuel)%nat →
  (∃ w', main fuel w = Returned false w') ∨
  (∃ w', main fuel w = Raised EOFError w' ∧ stdin w' = []).
Proof.
  revert w. induction fuel as [|fuel IH]; intros w Hfuel; [lia |].
  simpl. unfold mbind, io_bind.
  destruct (main_round w) as [[] w1 | e w1] eqn:Hround.
  - apply IH. apply main_round_consumes in Hround. lia.
  - left. eauto.
  - right. destruct (eof_main_round w e w1 Hround) as [-> Hin]. eauto.
Qed.

(** X8. A line at the menu that is no integer, or an integer below 0 or
    above 6, costs that one line and a message: the round returns to the
    menu with the store as it was.  A line that is the integer 0 ends the
    loop, again with the store as it was. *)
Theorem main_round_without_action (w : world) (line : str) (rest : list str) :
  stdin w = line :: rest →
  ∃ menu,
    print_menu w = Returned () (after w (stdin w) menu) ∧
    (Text.int ucd line = None →
       main_round w
         = Returned true
             (after w rest (menu ++ ["Select an option (0-6): ";
                                     line_of "Please enter a valid number."]))) ∧
    (∀ choice, Text.int ucd line = Some choice → choice < 0 ∨ 6 < choice →
       main_round w
         = Returned true
             (after w rest (menu ++ ["Select an option (0-6): ";
                                     line_of "Invalid option. Try again."]))) ∧
    (Text.int ucd line = Some 0 →
       main_round w
         = Returned false
             (after w rest (menu ++ ["Select an option (0-6): ";
                                     line_of "Exiting. Goodbye!"]))).
Proof.
  intros Hin. destruct (print_menu_writes w) as [menu Hmenu].
  exists menu. split; [done |].
  assert (∀ k : str → io bool,
            (print_menu;; line ← input "Select an option (0-6): "; k line) w
              = k line (after w rest (menu ++ ["Select an option (0-6): "]))) as Hstart.
  { intros k. unfold mbind, io_bind. rewrite Hmenu. unfold input. simpl.
    rewrite Hin. unfold after, write. simpl. by rewrite <- app_assoc. }
  unfold main_round. rewrite Hstart. clear Hstart.
  split; [| split].
  - intros ->. run. by rewrite <- !app_assoc.
  - intros choice -> Hout.
    assert ((choice =? 0) = false) as -> by lia.
    assert (actions choice = None) as ->.
    { unfold actions. repeat (case_match; [lia |]). done. }
    run. by rewrite <- !app_assoc.
  - intros ->. run. by rewrite <- !app_assoc.
Qed.

(** *** What is shown *)

Lemma lookup_enumerate_from {A} (start : nat) (l : list A) pos :
  enumerate_from start l !! pos = (λ x, ((start + pos)%nat, x)) <$> l !! pos.
Proof.
  revert start pos. induction l as [|x l IH]; intros start [|pos]; simpl; try done.
  - by rewrite Nat.add_0_r.
  - rewrite IH. by replace (S start + pos)%nat with (start + S pos)%nat by lia.
Qed.

Lemma length_enumerate_from {A} (start : nat) (l : list A) :
  length (enumerate_from start l) = length l.
Proof. by rewrite <- (length_fmap fst), fst_enumerate_from, length_seq. Qed.

Lemma group_lines_lookup start g pos i t :
  g !! pos = Some (i, t) →
  group_lines start g !! pos = Some (line_of (format_task_line (start + pos) t)).
Proof.
  intros Hg. unfold group_lines.
  by rewrite list_lookup_fmap, lookup_enumerate_from, Hg.
Qed.

Lemma length_group_lines start g : length (group_lines start g) = length g.
Proof. unfold group_lines. by rewrite length_fmap, length_enumerate_from. Qed.

Lemma print_group_lines start g w :
  for_each (enumerate_from start g)
      (λ '(i, (_, task)), print (format_task_line i task)) w
    = Returned () (after w (stdin w) (group_lines start g)).
Proof.
  rewrite (for_each_print _ _ (λ '(i, (_, task)), format_task_line i task))
    by (by intros [i [j task]]).
  do 2 f_equal. unfold group_lines. rewrite <- list_fmap_compose.
  apply list_fmap_ext. by intros ? [i [j task]] ?.
Qed.

Lemma show_tasks_writes w :
  show_tasks w = Returned () (after w (stdin w) (display_report (tasks w))).
Proof.
  destruct w as [ts ins out]. unfold show_tasks, display_report.
  destruct ts as [|t ts]; [by run |].
  unfold print_grouped_tasks, mbind, io_bind, get_tasks, print, write, after.
  cbn -[build_display_groups for_each enumerate_from group_lines length].
  destruct (build_display_groups (t :: ts)) as [undone done'].
  destruct undone as [|u undone], done' as [|d done'];
    cbn -[for_each enumerate_from group_lines length];
    rewrite ?print_group_lines; unfold after;
    cbn -[for_each enumerate_from group_lines length];
    rewrite ?print_group_lines; unfold after;
    cbn -[for_each enumerate_from group_lines length];
    do 2 f_equal; rewrite <- ?app_assoc; simpl; rewrite ?app_nil_r;
    rewrite <- ?app_assoc; done.
Qed.

Lemma display_groups_lookup ts pos i t :
  build_display_mapping ts !! pos = Some i → ts !! i = Some t →
  let '(undone, done') := build_display_groups ts in
  (pos < length undone ∧ undone !! pos = Some (i, t))%nat ∨
  (length undone ≤ pos ∧ done' !! (pos - length undone)%nat = Some (i, t))%nat.
Proof.
  intros Hm Ht. rewrite build_display_mapping_groups in Hm.
  pose proof (undone_group ts) as Hu. pose proof (done_group ts) as Hd.
  destruct (build_display_groups ts) as [undone done']; simpl in *.
  destruct (Nat.lt_ge_cases pos (length undone)) as [Hlt | Hge].
  - left. split; [done |].
    rewrite lookup_app_l in Hm by by rewrite length_fmap.
    rewrite list_lookup_fmap in Hm.
    destruct (undone !! pos) as [[i' t']|] eqn:Hp; [| done].
    injection Hm as ->. apply list_elem_of_lookup_2, Hu in Hp as [Hp _].
    simpl in Hp. congruence.
  - right. split; [done |].
    rewrite lookup_app_r in Hm by by rewrite length_fmap.
    rewrite length_fmap, list_lookup_fmap in Hm.
    destruct (done' !! (pos - length undone)%nat) as [[i' t']|] eqn:Hp; [| done].
    injection Hm as ->. apply list_elem_of_lookup_2, Hd in Hp as [Hp _].
    simpl in Hp. congruence.
Qed.

(** X9. [show_tasks] and the lookup of a display number agree: what
    [show_tasks] writes is the report of the store, whose task lines are
    those of the undone group numbered from 1 followed by those of the done
    group numbered on; there are as many as tasks, and the line at position
    [pos] carries the number [pos + 1] and the task whose original index the
    display mapping holds at [pos], which is the index [get_display_index]
    gives for the number [pos + 1]. *)
Theorem show_tasks_numbers (w : world) (pos i : nat) (t : Task) :
  build_display_mapping (tasks w) !! pos = Some i →
  tasks w !! i = Some t →
  show_tasks w = Returned () (after w (stdin w) (display_report (tasks w))) ∧
  let '(undone, done') := build_display_groups (tasks w) in
  let task_lines := group_lines 1 undone ++ group_lines (length undone + 1) done' in
  length task_lines = length (tasks w) ∧
  task_lines !! pos = Some (line_of (format_task_line (S pos) t)).
Proof.
  intros Hm Ht. split; [apply show_tasks_writes |].
  pose proof (display_groups_lookup _ _ _ _ Hm Ht) as Hpos.
  pose proof (length_build_display_mapping (tasks w)) as Hlen.
  rewrite build_display_mapping_groups in Hlen.
  destruct (build_display_groups (tasks w)) as [undone done']; simpl in *.
  rewrite length_app, !length_fmap in Hlen.
  split; [by rewrite length_app, !length_group_lines |].
  destruct Hpos as [[Hlt Hp] | [Hge Hp]].
  - rewrite lookup_app_l by by rewrite length_group_lines.
    by rewrite (group_lines_lookup 1 undone pos i t Hp).
  - rewrite lookup_app_r by by rewrite length_group_lines.
    rewrite length_group_lines.
    rewrite (group_lines_lookup _ done' _ i t Hp). do 3 f_equal. lia.
Qed.

Lemma length_filter_perm {A} (f : A → bool) (l l' : list A) :
  l ≡ₚ l' → length (List.filter f l) = length (List.filter f l').
Proof.
  induction 1 as [| x l l' _ IH | x y l | l l' l'' _ IH1 _ IH2]; simpl.
  - done.
  - destruct (f x); simpl; congruence.
  - by destruct (f x), (f y).
  - congruence.
Qed.

Lemma length_filter_enumerate_from {A} (f : A → bool) start (l : list A) :
  length (List.filter (λ p, f (snd p)) (enumerate_from start l))
    = length (List.filter f l).
Proof.
  revert start. induction l as [|x l IH]; intros start; simpl; [done |].
  destruct (f x); simpl; by rewrite IH.
Qed.

Lemma length_display_groups ts :
  length (snd (build_display_groups ts)) = length (List.filter done ts) ∧
  (length (fst (build_display_groups ts)) + length (snd (build_display_groups ts))
     = length ts)%nat.
Proof.
  split.
  - unfold build_display_groups. simpl.
    rewrite (length_filter_perm _ _ _ (sorted_indexed_perm ts)).
    apply (length_filter_enumerate_from done).
  - rewrite <- length_app.
    unfold build_display_groups. simpl.
    rewrite (Permutation_length (filter_split_perm _ _)).
    rewrite (Permutation_length (sorted_indexed_perm ts)).
    apply length_enumerate_from.
Qed.

(** X10. The two counts of [report] are the sizes of the two groups that
    [show_tasks] displays, and they add up to the size of the store. *)
Theorem report_counts_groups (w : world) :
  let '(undone, done') := build_display_groups (tasks w) in
  report w
    = Returned ()
        (after w (stdin w)
           [line_of ("Done: " ++ repr (length done')
                       ++ " | Undone: " ++ repr (length undone))]) ∧
  (length undone + length done' = length (tasks w))%nat.
Proof.
  pose proof (length_display_groups (tasks w)) as [Hd Hsum].
  destruct (build_display_groups (tasks w)) as [undone done']; simpl in *.
  split; [| done]. unfold report. run. rewrite <- Hd.
  by replace (length (tasks w) - length done')%nat with (length undone) by lia.
Qed.

(** X11. Toggling at a valid display number changes one task only, the one
    whose original index the mapping gives for the number, and of it only
    [done]: the other tasks, the size of the store, the title and the
    priority stay, and the task is afterwards in the other group of the
    display. *)
Theorem toggle_task_moves_group
    (w : world) (line : str) (rest : list str) (n : Z) :
  stdin w = line :: rest →
  Text.int ucd line = Some n →
  1 ≤ n ≤ Z.of_nat (length (build_display_mapping (tasks w))) →
  ∃ i t w',
    build_display_mapping (tasks w) !! Z.to_nat (n - 1) = Some i ∧
    tasks w !! i = Some t ∧
    toggle_task w = Returned () w' ∧
    length (tasks w') = length (tasks w) ∧
    tasks w' !! i = Some (mkTask (title t) (negb (done t)) (priority t)) ∧
    (∀ j, j ≠ i → tasks w' !! j = tasks w !! j) ∧
    let '(undone, done') := build_display_groups (tasks w') in
    let t' := mkTask (title t) (negb (done t)) (priority t) in
    if done t then (i, t') ∈ undone ∧ (i, t') ∉ done'
    else (i, t') ∈ done' ∧ (i, t') ∉ undone.
Proof.
  intros Hin Hint Hn.
  destruct (toggle_task_toggles w line rest n Hin Hint Hn) as (i & t & Hi & Ht & Hrun).
  eexists i, t, _. split; [done |]. split; [done |]. split; [exact Hrun |].
  cbn [tasks with_tasks]. split; [apply length_alter |].
  assert (alter (set_done (negb (done t))) i (tasks w) !! i
            = Some (mkTask (title t) (negb (done t)) (priority t))) as Hnew.
  { by rewrite list_lookup_alter_eq, Ht. }
  split; [done |]. split; [intros j Hj; by apply list_lookup_alter_ne |].
  pose proof (undone_group (alter (set_done (negb (done t))) i (tasks w))) as Hu.
  pose proof (done_group (alter (set_done (negb (done t))) i (tasks w))) as Hd.
  destruct (build_display_groups _) as [undone done']. cbn [fst snd] in Hu, Hd.
  destruct (done t); cbn [negb] in *.
  - split; [by apply Hu |]. intros H. by apply Hd in H as [_ ?].
  - split; [by apply Hd |]. intros H. by apply Hu in H as [_ ?].
Qed.

(** *** Deleting and adding again *)

Lemma title_exists_delete ts i t s :
  unique_titles ts → ts !! i = Some t →
  Text.lower ucd s = Text.lower ucd (title t) →
  title_exists (delete i ts) s = false.
Proof.
  intros Huniq Ht Heq. apply not_true_iff_false. intros Hex.
  apply title_exists_true in Hex as (t' & Hin & Hlow).
  apply list_elem_of_lookup_1 in Hin as [j Hj].
  destruct (Nat.lt_ge_cases j i) as [Hlt | Hge].
  - rewrite list_lookup_delete_lt in Hj by done.
    assert (j = i) by (apply (Huniq j i t' t Hj Ht); congruence). lia.
  - rewrite list_lookup_delete_ge in Hj by done.
    assert (S j = i) by (apply (Huniq (S j) i t' t Hj Ht); congruence). lia.
Qed.

(** X12. In a store the program can reach, deleting a task frees its title:
    right after the deletion, a title entered that is not empty once
    stripped and has the lower-case form of the deleted title, whatever its
    casing, is added with an acceptable priority as a new task at the end of
    the store. *)
Theorem delete_then_add_again
    (w : world) (number title_line priority_line : str) (rest : list str)
    (n p : Z) (i : nat) (t : Task) :
  reachable (tasks w) →
  stdin w = number :: title_line :: priority_line :: rest →
  Text.int ucd number = Some n →
  1 ≤ n ≤ Z.of_nat (length (build_display_mapping (tasks w))) →
  build_display_mapping (tasks w) !! Z.to_nat (n - 1) = Some i →
  tasks w !! i = Some t →
  Text.strip title_line ≠ "" →
  Text.lower ucd (Text.strip title_line) = Text.lower ucd (title t) →
  accepted_priority priority_line = Some p →
  ∃ w',
    (delete_task;; add_task) w = Returned () w' ∧
    tasks w' = delete i (tasks w) ++ [mkTask (Text.strip title_line) false p] ∧
    stdin w' = rest.
Proof.
  intros Hreach Hin Hint Hn Hi Ht Hne Hlow Hp.
  destruct (delete_task_removes w number (title_line :: priority_line :: rest) n
              Hin Hint Hn) as (i' & t' & Hi' & _ & Hdel & _).
  assert (i' = i) as -> by congruence. clear Hi'.
  pose proof (reachable_well_formed _ Hreach) as Hwf.
  pose proof (well_formed_unique_titles _ Hwf) as Huniq.
  unfold mbind at 1, io_bind at 1. rewrite Hdel.
  match goal with |- context [add_task ?w0] =>
    pose proof (add_task_appends w0 title_line [] priority_line rest p eq_refl) as Hadd
  end.
  cbn [tasks with_tasks after] in Hadd.
  rewrite Hadd; [eexists; split; [done | by split] | done | | done | done].
  by apply (title_exists_delete _ _ t).
Qed.

(** *** Numerals *)

Lemma pretty_N_char_digit x :
  (x < 10)%N →
  Text.isdigit (N_of_ascii (pretty_N_char x)) = true ∧
  Text.digit_value (N_of_ascii (pretty_N_char x)) = Z.of_N x.
Proof.
  intros Hx.
  assert (x = 0 ∨ x = 1 ∨ x = 2 ∨ x = 3 ∨ x = 4 ∨ x = 5 ∨ x = 6 ∨ x = 7
          ∨ x = 8 ∨ x = 9)%N as Hcases by lia.
  repeat (destruct Hcases as [-> | Hcases]; [by vm_compute |]).
  subst x. by vm_compute.
Qed.

Lemma of_string_cons c s :
  Text.of_string (String c s) = N_of_ascii c :: Text.of_string s.
Proof. done. Qed.

Lemma pretty_N_go_all_digits x s :
  all_digits (Text.of_string s) = true →
  all_digits (Text.of_string (pretty_N_go x s)) = true.
Proof.
  revert s. induction (N.lt_wf_0 x) as [x _ IH]; intros s Hs.
  assert (x = 0 ∨ 0 < x)%N as [-> | Hpos] by lia; [by rewrite pretty_N_go_0 |].
  rewrite pretty_N_go_step by done. apply IH; [by apply N.div_lt |].
  rewrite of_string_cons. simpl. rewrite Hs.
  by destruct (pretty_N_char_digit (x `mod` 10)%N) as [-> _];
    [apply N.mod_lt |].
Qed.

Lemma pretty_N_go_value x s :
  numeral_value 0 (Text.of_string (pretty_N_go x s))
    = numeral_value (Z.of_N x) (Text.of_string s).
Proof.
  revert s. induction (N.lt_wf_0 x) as [x _ IH]; intros s.
  assert (x = 0 ∨ 0 < x)%N as [-> | Hpos] by lia; [by rewrite pretty_N_go_0 |].
  rewrite pretty_N_go_step by done. rewrite IH by by apply N.div_lt.
  rewrite of_string_cons. simpl. f_equal.
  destruct (pretty_N_char_digit (x `mod` 10)%N) as [_ ->]; [by apply N.mod_lt |].
  rewrite (N.div_mod x 10) at 3 by done. lia.
Qed.

Lemma pretty_N_go_nonempty x s : (0 < x)%N → Text.of_string (pretty_N_go x s) ≠ [].
Proof.
  assert (∀ y s', length (Text.of_string s')
                    ≤ length (Text.of_string (pretty_N_go y s')))%nat as Hlen.
  { intros y. induction (N.lt_wf_0 y) as [y _ IH]; intros s'.
    assert (y = 0 ∨ 0 < y)%N as [-> | Hpos] by lia; [by rewrite pretty_N_go_0 |].
    rewrite pretty_N_go_step by done.
    etrans; [| by eapply IH, N.div_lt]. rewrite of_string_cons. simpl. lia. }
  intros Hpos Heq. rewrite pretty_N_go_step in Heq by done.
  match type of Heq with Text.of_string (pretty_N_go ?y ?s') = _ =>
    specialize (Hlen y s') end.
  rewrite Heq, of_string_cons in Hlen. simpl in Hlen. lia.
Qed.

Lemma digits_all_digits s acc prev :
  all_digits s = true → s ≠ [] ∨ prev = true →
  Text.digits acc prev s = Some (numeral_value acc s).
Proof.
  revert acc prev. induction s as [|c s IH]; intros acc prev Hs Hne; simpl.
  - by destruct Hne as [? | ->].
  - simpl in Hs. apply andb_prop in Hs as [Hc Hs]. rewrite Hc.
    apply IH; [done | by right].
Qed.

Lemma isdigit_range c : Text.isdigit c = true → (48 ≤ c ≤ 57)%N.
Proof. unfold Text.isdigit. rewrite andb_true_iff, !N.leb_le. lia. Qed.

Lemma isdigit_not_isspace_c c : Text.isdigit c = true → Text.isspace_c c = false.
Proof.
  intros Hc%isdigit_range. unfold Text.isspace_c.
  rewrite orb_false_iff, andb_false_iff, !N.leb_gt, N.eqb_neq. lia.
Qed.

Lemma all_digits_is_ascii s : all_digits s = true → Text.is_ascii s = true.
Proof.
  induction s as [|c s IH]; simpl; [done |].
  intros [Hc%isdigit_range Hs]%andb_prop. rewrite IH by done.
  rewrite andb_true_r. apply N.ltb_lt. lia.
Qed.

Lemma strip_all_digits s :
  all_digits s = true → Text.strip_with Text.isspace_c s = s.
Proof.
  intros Hs. unfold Text.strip_with.
  assert (Text.lstrip_with Text.isspace_c s = s) as ->.
  { destruct s as [|c s]; simpl in *; [done |].
    apply andb_prop in Hs as [Hc _]. by rewrite isdigit_not_isspace_c. }
  induction s as [|c s IH]; [done |]. rewrite rstrip_cons.
  simpl in Hs. apply andb_prop in Hs as [Hc Hs]. rewrite IH by done.
  destruct s; [by rewrite isdigit_not_isspace_c | done].
Qed.

Lemma int_all_digits s :
  all_digits s = true → s ≠ [] →
  (Text.digit_count s ≤ Text.max_str_digits)%nat →
  Text.int ucd s = Some (numeral_value 0 s).
Proof.
  intros Hs Hne Hcount. unfold Text.int.
  rewrite ascii_form_ascii by by apply all_digits_is_ascii.
  cbv zeta.
  destruct (Nat.ltb_spec Text.max_str_digits (Text.digit_count s)); [lia |].
  rewrite strip_all_digits by done.
  rewrite <- (digits_all_digits s 0 false Hs (or_introl Hne)).
  destruct s as [|c s]; [done |]. simpl in Hs. apply andb_prop in Hs as [Hc _].
  apply isdigit_range in Hc.
  destruct (N.eqb_spec c 45); [lia |]. by destruct (N.eqb_spec c 43); [lia |].
Qed.

(** The numeral that [format_task_line] writes for a number is read back by
    [int] as that number. *)
Lemma int_pretty_nat (k : nat) :
  (Text.digit_count (repr k) ≤ Text.max_str_digits)%nat →
  Text.int ucd (repr k) = Some (Z.of_nat k).
Proof.
  unfold repr, pretty, pretty_nat, pretty, pretty_N.
  destruct (decide (N.of_nat k = 0%N)) as [Hk | Hk].
  - intros _. assert (k = 0%nat) as -> by lia. reflexivity.
  - intros Hcount. rewrite int_all_digits; [| | | done].
    + rewrite pretty_N_go_value. simpl. f_equal. lia.
    + by apply pretty_N_go_all_digits.
    + apply pretty_N_go_nonempty. lia.
Qed.

(** X13. Typing the number that [show_tasks] writes in front of a task picks
    that task: for the numeral of [pos + 1], the lookup returns the original
    index the mapping holds at [pos], and so [toggle_task] flips the task
    shown under that number and [delete_task] deletes it.  (CPython reads
    numerals of up to 4300 digits.) *)
Theorem shown_number_selects
    (w : world) (pos i : nat) (t : Task) (rest : list str) :
  build_display_mapping (tasks w) !! pos = Some i →
  tasks w !! i = Some t →
  stdin w = repr (S pos) :: rest →
  (Text.digit_count (repr (S pos)) ≤ Text.max_str_digits)%nat →
  (∀ prompt,
     get_display_index prompt w = Returned (Some i) (after w rest [prompt])) ∧
  toggle_task w
    = Returned ()
        (with_tasks (alter (set_done (negb (done t))) i (tasks w))
           (after w rest ["Enter task number to toggle: ";
                          line_of "Task status updated."])) ∧
  delete_task w
    = Returned ()
        (with_tasks (delete i (tasks w))
           (after w rest ["Enter task number to delete: "; line_of "Task deleted."])).
Proof.
  intros Hm Ht Hin Hcount.
  pose proof (int_pretty_nat (S pos) Hcount) as Hint.
  pose proof (lookup_lt_Some _ _ _ Hm) as Hlt.
  assert (1 ≤ Z.of_nat (S pos) ≤ Z.of_nat (length (build_display_mapping (tasks w))))
    as Hn by lia.
  assert (Z.to_nat (Z.of_nat (S pos) - 1) = pos) as Hpos by lia.
  assert (tasks w ≠ []) as Hne by (intros Hnil; by rewrite Hnil in Ht).
  split; [| split].
  - intros prompt.
    destruct (get_display_index_inside prompt w _ rest Hne Hin _ Hint Hn)
      as (i' & Hi' & ->).
    rewrite Hpos in Hi'. congruence.
  - destruct (toggle_task_toggles w _ rest _ Hin Hint Hn) as (i' & t' & Hi' & Ht' & ->).
    rewrite Hpos in Hi'. by simplify_eq.
  - destruct (delete_task_removes w _ rest _ Hin Hint Hn) as (i' & t' & Hi' & _ & -> & _).
    rewrite Hpos in Hi'. by simplify_eq.
Qed.

(** X14. The empty keyword is in every title, so [find_matching_tasks]
    returns for it all the tasks, in the order in which the display sorts
    them by priority; [search_tasks] never gives it this keyword. *)
Theorem find_matching_tasks_empty_keyword (ts : list Task) :
  find_matching_tasks ts "" = _sorted_indexed_by_priority ts None ∧
  length (find_matching_tasks ts "") = length ts.
Proof.
  assert (find_matching_tasks ts "" = _sorted_indexed_by_priority ts None) as Heq.
  { unfold find_matching_tasks, _sorted_indexed_by_priority, _indexed_tasks.
    f_equal. rewrite <- (List.filter_true (enumerate ts)) at 2.
    apply List.filter_ext. intros [i t]. simpl.
    by destruct (Text.lower ucd (title t)). }
  split; [done |]. rewrite Heq.
  unfold _sorted_indexed_by_priority, _indexed_tasks, enumerate.
  by rewrite length_sorted, length_enumerate_from.
Qed.

(** *** The order of the display *)

Lemma StronglySorted_of_lookup {A} (R : relation A) (l : list A) :
  (∀ a b x y, (a < b)%nat → l !! a = Some x → l !! b = Some y → R x y) →
  StronglySorted R l.
Proof.
  induction l as [|x l IH]; intros Hl; [constructor |].
  apply StronglySorted_cons. split.
  - apply Forall_forall. intros y Hy. apply list_elem_of_lookup_1 in Hy as [b Hb].
    apply (Hl 0%nat (S b)); [lia | done | done].
  - apply IH. intros a b y z Hab Ha Hb. apply (Hl (S a) (S b)); [lia | done | done].
Qed.

Lemma display_before_antisym ts i j :
  display_before ts i j → display_before ts j i → i = j.
Proof.
  intros (ti & tj & Hi & Hj & H1) (tj' & ti' & Hj' & Hi' & H2).
  simplify_eq.
  destruct H1 as [[? ?] | [? [? | [? ?]]]], H2 as [[? ?] | [? [? | [? ?]]]];
    congruence || lia.
Qed.

Lemma display_groups_stable ts :
  priority_stable (fst (build_display_groups ts)) ∧
  priority_stable (snd (build_display_groups ts)).
Proof.
  split; apply key_then_priority_stable, StronglySorted_filter, sorted_indexed_order.
Qed.

Lemma build_display_mapping_sorted ts :
  StronglySorted (display_before ts) (build_display_mapping ts).
Proof.
  apply StronglySorted_of_lookup. intros a b i j Hab Ha Hb.
  destruct (lookup_lt_is_Some_2 ts i (build_display_mapping_lookup_lt _ _ _ Ha))
    as [ti Hi].
  destruct (lookup_lt_is_Some_2 ts j (build_display_mapping_lookup_lt _ _ _ Hb))
    as [tj Hj].
  exists ti, tj. split; [done |]. split; [done |].
  pose proof (display_groups_lookup _ _ _ _ Ha Hi) as Hpa.
  pose proof (display_groups_lookup _ _ _ _ Hb Hj) as Hpb.
  pose proof (display_groups_stable ts) as [Hsu Hsd].
  pose proof (undone_group ts) as Hu. pose proof (done_group ts) as Hd.
  destruct (build_display_groups ts) as [undone done']; simpl in *.
  destruct Hpa as [[Hla Hpa] | [Hla Hpa]], Hpb as [[Hlb Hpb] | [Hlb Hpb]].
  - destruct (proj1 (Hu _) (list_elem_of_lookup_2 _ _ _ Hpa)) as [_ Hda].
    destruct (proj1 (Hu _) (list_elem_of_lookup_2 _ _ _ Hpb)) as [_ Hdb].
    destruct (Hsu a b _ _ Hab Hpa Hpb) as [Hle Hidx]. simpl in *.
    right. split; [congruence |].
    destruct (decide (priority ti = priority tj)); [right; auto | left; lia].
  - apply list_elem_of_lookup_2, Hu in Hpa as [_ Hda].
    apply list_elem_of_lookup_2, Hd in Hpb as [_ Hdb]. by left.
  - lia.
  - destruct (proj1 (Hd _) (list_elem_of_lookup_2 _ _ _ Hpa)) as [_ Hda].
    destruct (proj1 (Hd _) (list_elem_of_lookup_2 _ _ _ Hpb)) as [_ Hdb].
    destruct (Hsd (a - length undone)%nat (b - length undone)%nat _ _
                ltac:(lia) Hpa Hpb) as [Hle Hidx]. simpl in *.
    right. split; [congruence |].
    destruct (decide (priority ti = priority tj)); [right; auto | left; lia].
Qed.

Lemma build_display_mapping_unique ts l :
  l ≡ₚ seq 0 (length ts) → StronglySorted (display_before ts) l →
  l = build_display_mapping ts.
Proof.
  intros Hperm Hl.
  apply (StronglySorted_unique_strong (display_before ts)).
  - intros i j _ _. apply display_before_antisym.
  - done.
  - apply build_display_mapping_sorted.
  - by rewrite Hperm, build_display_mapping_perm.
Qed.

(** X15. The display is in one order: undone tasks first, then by priority,
    then by original index; and the display mapping is the only arrangement
    of the original indices that is in this order. *)
Theorem build_display_mapping_order (ts : list Task) :
  StronglySorted (display_before ts) (build_display_mapping ts) ∧
  ∀ l, l ≡ₚ seq 0 (length ts) → StronglySorted (display_before ts) l →
       l = build_display_mapping ts.
Proof.
  split; [apply build_display_mapping_sorted |].
  intros l. apply build_display_mapping_unique.
Qed.

Lemma filter_perm {A} (f : A → bool) (l l' : list A) :
  l ≡ₚ l' → List.filter f l ≡ₚ List.filter f l'.
Proof.
  induction 1 as [| x l l' _ IH | x y l | l l' l'' _ IH1 _ IH2]; simpl.
  - done.
  - destruct (f x); [by apply perm_skip | done].
  - destruct (f x), (f y); try done. apply perm_swap.
  - by etrans.
Qed.

Lemma StronglySorted_filter_fmap {A B} (R : relation A) (R' : relation B)
    (f : A → bool) (g : A → B) (l : list A) :
  StronglySorted R l →
  (∀ x y, x ∈ l → y ∈ l → f x = true → f y = true → R x y → R' (g x) (g y)) →
  StronglySorted R' (g <$> List.filter f l).
Proof.
  induction 1 as [|x l Hl IH Hx]; intros Hmono; simpl; [constructor |].
  assert (StronglySorted R' (g <$> List.filter f l)) as Hrest.
  { apply IH. intros y z Hy Hz. apply Hmono; by apply list_elem_of_further. }
  destruct (f x) eqn:Hfx; [| done].
  rewrite fmap_cons. apply StronglySorted_cons. split; [| done].
  apply Forall_forall. intros z Hz.
  apply list_elem_of_fmap in Hz as (y & -> & Hy).
  apply elem_of_filter in Hy as [Hy Hfy].
  apply Hmono; [apply list_elem_of_here | by apply list_elem_of_further | done | done |].
  rewrite Forall_forall in Hx. by apply Hx.
Qed.

Lemma shifted_seq_below i start len :
  (start + len ≤ i)%nat →
  shifted i <$> List.filter (other_than i) (seq start len) = seq start len.
Proof.
  revert start. induction len as [|len IH]; intros start Hle; simpl; [done |].
  unfold other_than at 1. destruct (Nat.eqb_spec start i); [lia |]. simpl.
  rewrite IH by lia. f_equal. unfold shifted.
  by destruct (Nat.ltb_spec start i); [| lia].
Qed.

Lemma shifted_seq_above i start len :
  (i < start)%nat →
  shifted i <$> List.filter (other_than i) (seq start len) = seq (pred start) len.
Proof.
  revert start. induction len as [|len IH]; intros start Hlt; simpl; [done |].
  unfold other_than at 1. destruct (Nat.eqb_spec start i); [lia |]. simpl.
  rewrite IH by lia. destruct start as [|start]; [lia |]. simpl. f_equal.
  unfold shifted. by destruct (Nat.ltb_spec (S start) i); [lia |].
Qed.

Lemma shifted_seq i n :
  (i < n)%nat →
  shifted i <$> List.filter (other_than i) (seq 0 n) = seq 0 (n - 1).
Proof.
  intros Hlt. replace n with (i + S (n - S i))%nat at 1 by lia.
  rewrite seq_app, List.filter_app, fmap_app. simpl.
  unfold other_than at 2. rewrite Nat.eqb_refl. simpl.
  rewrite shifted_seq_below by lia. rewrite shifted_seq_above by lia. simpl.
  replace (n - 1)%nat with (i + (n - S i))%nat by lia. by rewrite seq_app.
Qed.

Lemma lookup_delete_shifted (ts : list Task) i a :
  a ≠ i → delete i ts !! shifted i a = ts !! a.
Proof.
  intros Hne. unfold shifted. destruct (Nat.ltb_spec a i).
  - by apply list_lookup_delete_lt.
  - rewrite list_lookup_delete_ge by lia. f_equal. lia.
Qed.

Lemma other_than_true i j : other_than i j = true ↔ j ≠ i.
Proof. unfold other_than. destruct (Nat.eqb_spec j i); simpl; naive_solver. Qed.

(** X16. Deleting a task leaves the other tasks in the order the display
    had them in: the mapping of the new store is the old mapping without
    the deleted original index, each index above it one less. *)
Theorem delete_keeps_display_order (ts : list Task) (i : nat) :
  (i < length ts)%nat →
  build_display_mapping (delete i ts)
    = shifted i <$> List.filter (other_than i) (build_display_mapping ts).
Proof.
  intros Hlt. symmetry. apply build_display_mapping_unique.
  - rewrite (filter_perm _ _ _ (build_display_mapping_perm ts)).
    rewrite shifted_seq by done.
    rewrite length_delete by by apply lookup_lt_is_Some_2. done.
  - apply (StronglySorted_filter_fmap (display_before ts));
      [apply build_display_mapping_sorted |].
    intros a b _ _ Ha Hb (ta & tb & Hta & Htb & Hord).
    apply other_than_true in Ha, Hb.
    exists ta, tb. rewrite !lookup_delete_shifted by done.
    split; [done |]. split; [done |].
    destruct Hord as [? | [? [? | [? Hab]]]]; [by left | right; auto | right].
    split; [done |]. right. split; [done |].
    unfold shifted. destruct (Nat.ltb_spec a i), (Nat.ltb_spec b i); lia.
Qed.

(** X17. Toggling a task leaves the other tasks in the order the display
    had them in: without the toggled original index, the mapping after the
    toggle is the mapping before it. *)
Theorem toggle_keeps_others_order (ts : list Task) (i : nat) (v : bool) :
  List.filter (other_than i) (build_display_mapping (alter (set_done v) i ts))
    = List.filter (other_than i) (build_display_mapping ts).
Proof.
  apply (StronglySorted_unique_strong (display_before ts)).
  - intros a b _ _. apply display_before_antisym.
  - rewrite <- (list_fmap_id (List.filter _ _)).
    apply (StronglySorted_filter_fmap (display_before (alter (set_done v) i ts)));
      [apply build_display_mapping_sorted |].
    intros a b _ _ Ha Hb (ta & tb & Hta & Htb & Hord).
    apply other_than_true in Ha, Hb.
    rewrite list_lookup_alter_ne in Hta, Htb by done.
    by exists ta, tb.
  - apply StronglySorted_filter, build_display_mapping_sorted.
  - rewrite (filter_perm _ _ _ (build_display_mapping_perm _)).
    rewrite (filter_perm _ _ _ (build_display_mapping_perm ts)).
    by rewrite length_alter.
Qed.

(** X18. Adding a task leaves the tasks that were there in the order the
    display had them in: without the original index of the new task, which
    is the old size of the store, the mapping of the new store is the old
    mapping. *)
Theorem add_keeps_display_order (ts : list Task) (t : Task) :
  List.filter (other_than (length ts)) (build_display_mapping (ts ++ [t]))
    = build_display_mapping ts.
Proof.
  apply build_display_mapping_unique.
  - rewrite (filter_perm _ _ _ (build_display_mapping_perm _)).
    rewrite length_app. simpl. rewrite Nat.add_1_r, seq_S, List.filter_app. simpl.
    unfold other_than at 2. rewrite Nat.eqb_refl. simpl. rewrite app_nil_r.
    pose proof (shifted_seq_below (length ts) 0 (length ts) ltac:(lia)) as Hseq.
    rewrite <- Hseq at 2. rewrite <- (list_fmap_id (List.filter _ _)) at 1.
    apply Permutation_refl'. apply list_fmap_ext. intros k a Ha.
    apply list_elem_of_lookup_2, elem_of_filter in Ha as [Ha _].
    apply elem_of_seq in Ha. unfold shifted.
    by destruct (Nat.ltb_spec a (length ts)); [| lia].
  - rewrite <- (list_fmap_id (List.filter _ _)).
    apply (StronglySorted_filter_fmap (display_before (ts ++ [t])));
      [apply build_display_mapping_sorted |].
    intros a b Hina Hinb Ha Hb (ta & tb & Hta & Htb & Hord).
    apply other_than_true in Ha, Hb.
    rewrite build_display_mapping_perm, elem_of_seq, length_app in Hina, Hinb.
    simpl in Hina, Hinb.
    rewrite lookup_app_l in Hta, Htb by lia.
    by exists ta, tb.
Qed.

(** *** Searching and [done] *)

Lemma insert_by_fmap {A} (key : A → Z) (h : A → A) x l :
  (∀ y, key (h y) = key y) →
  insert_by key (h x) (h <$> l) = h <$> insert_by key x l.
Proof.
  intros Hkey. induction l as [|y l IH]; simpl; [done |].
  rewrite !Hkey. destruct (key x <=? key y); simpl; [done |]. f_equal. apply IH.
Qed.

Lemma sorted_fmap {A} (key : A → Z) (h : A → A) l :
  (∀ y, key (h y) = key y) →
  sorted key (h <$> l) = h <$> sorted key l.
Proof.
  intros Hkey. induction l as [|x l IH]; [done |].
  rewrite fmap_cons. cbn [sorted]. rewrite IH. by apply insert_by_fmap.
Qed.

Lemma filter_fmap {A} (f : A → bool) (h : A → A) l :
  (∀ y, f (h y) = f y) →
  List.filter f (h <$> l) = h <$> List.filter f l.
Proof.
  intros Hf. induction l as [|x l IH]; [done |].
  rewrite fmap_cons. cbn [List.filter]. rewrite Hf, IH. by destruct (f x).
Qed.

Lemma enumerate_from_alter (g : Task → Task) start i (l : list Task) :
  enumerate_from start (alter g i l)
    = (λ p, (fst p, if (fst p =? start + i)%nat then g (snd p) else snd p))
        <$> enumerate_from start l.
Proof.
  revert start i. induction l as [|x l IH]; intros start i; simpl; [done |].
  destruct i as [|i]; simpl.
  - rewrite Nat.add_0_r, Nat.eqb_refl. f_equal.
    rewrite <- (list_fmap_id (enumerate_from (S start) l)) at 1.
    apply list_fmap_ext. intros k [j t] Hk. simpl.
    apply list_elem_of_lookup_2, elem_of_enumerate_from in Hk as [Hle _].
    destruct (Nat.eqb_spec j start); [lia | done].
  - destruct (Nat.eqb_spec start (start + S i)); [lia |]. f_equal.
    change (list_alter g i l) with (alter g i l). rewrite IH.
    apply list_fmap_ext. intros k [j t] _. simpl.
    by replace (S (start + i)) with (start + S i)%nat by lia.
Qed.

(** X19. What a search finds does not depend on [done]: after any task is
    set done or undone, [find_matching_tasks] returns for every keyword the
    same original indices in the same order. *)
Theorem find_matching_tasks_ignores_done
    (ts : list Task) (i : nat) (v : bool) (keyword : str) :
  fst <$> find_matching_tasks (alter (set_done v) i ts) keyword
    = fst <$> find_matching_tasks ts keyword.
Proof.
  unfold find_matching_tasks, enumerate. rewrite enumerate_from_alter.
  rewrite filter_fmap, sorted_fmap.
  - rewrite <- list_fmap_compose. by apply list_fmap_ext.
  - intros [j t]. unfold by_priority. simpl. by destruct (_ =? _)%nat.
  - intros [j t]. simpl. by destruct (_ =? _)%nat.
Qed.


End Program.

Arguments Returned {A} a w.
Arguments Raised {A} e w.

(** ** Runs on concrete inputs

    The inputs below are ASCII text unless said otherwise, and on ASCII text
    the program does not look at the tables ([lower_ascii],
    [ascii_form_ascii]): what [basic] gives is what every table gives. *)

Lemma get_display_index_resolves_witness :
  get_display_index basic "> "
      (mkWorld [mkTask "Buy milk" false 2; mkTask "Call mom" false 1] ["2"] [])
    = Returned (Some 0%nat)
        (mkWorld [mkTask "Buy milk" false 2; mkTask "Call mom" false 1] [] ["> "]).
Proof.
  destruct (get_display_index_resolves basic "> "
              (mkWorld [mkTask "Buy milk" false 2; mkTask "Call mom" false 1] ["2"] [])
              "2" [] 2 eq_refl eq_refl)
    as ([_ Hex] & Hval & _).
  destruct Hex as (i & w' & H); [simpl; lia |].
  destruct (Hval i w' H) as [Hi ->].
  vm_compute in Hi. injection Hi as <-. exact H.
Defined.

Lemma failed_lookup_no_mutation_witness :
  (∃ w', toggle_task basic (mkWorld [mkTask "Buy milk" false 2] ["7"] []) = Returned () w'
         ∧ tasks w' = [mkTask "Buy milk" false 2]) ∧
  (∃ w', delete_task basic (mkWorld [mkTask "Buy milk" false 2] ["7"] []) = Returned () w'
         ∧ tasks w' = [mkTask "Buy milk" false 2]).
Proof.
  apply (failed_lookup_no_mutation basic (mkWorld [mkTask "Buy milk" false 2] ["7"] [])).
  right. exists "7", []. split; [reflexivity |].
  right. exists 7. split; [reflexivity |]. vm_compute. intros [_ H]. by apply H.
Defined.

Lemma toggle_done_twice_witness :
  ∃ w1 w2,
    toggle_done 1 (mkWorld [mkTask "Buy milk" false 2; mkTask "Call mom" true 1] [] [])
      = Returned () w1 ∧
    toggle_done 1 w1 = Returned () w2 ∧
    w2 = mkWorld [mkTask "Buy milk" false 2; mkTask "Call mom" true 1] [] [].
Proof.
  destruct (toggle_done_twice
              (mkWorld [mkTask "Buy milk" false 2; mkTask "Call mom" true 1] [] []) 1)
    as (w1 & w2 & H1 & H2 & _ & _ & _ & _ & Hw); [simpl; lia |].
  exists w1, w2. auto.
Defined.

Lemma delete_task_removes_witness :
  delete_task basic
      (mkWorld [mkTask "Buy milk" false 2; mkTask "Call mom" false 1] ["1"] [])
    = Returned ()
        (mkWorld [mkTask "Buy milk" false 2] []
           ["Enter task number to delete: "; line_of "Task deleted."]).
Proof.
  destruct (delete_task_removes basic
              (mkWorld [mkTask "Buy milk" false 2; mkTask "Call mom" false 1] ["1"] [])
              "1" [] 1 eq_refl eq_refl)
    as (i & t & Hi & _ & H & _); [vm_compute; split; discriminate |].
  vm_compute in Hi. injection Hi as <-. exact H.
Defined.

(** C4 as it was stated fails: after deleting the task at original index
    [0] of a store of two, the mapping of the new store is [[0]], so the
    deleted original index is referenced again. *)
Lemma delete_task_index_reused :
  build_display_mapping [mkTask "Buy milk" false 1; mkTask "Call mom" false 1]
    !! Z.to_nat (1 - 1) = Some 0%nat ∧
  delete_task basic
      (mkWorld [mkTask "Buy milk" false 1; mkTask "Call mom" false 1] ["1"] [])
    = Returned ()
        (mkWorld [mkTask "Call mom" false 1] []
           ["Enter task number to delete: "; line_of "Task deleted."]) ∧
  0%nat ∈ build_display_mapping [mkTask "Call mom" false 1].
Proof.
  split; [reflexivity |]. split; [reflexivity |].
  vm_compute. apply list_elem_of_here.
Qed.

Lemma reachable_two_tasks :
  reachable basic [mkTask "Buy milk" false 2; mkTask "Call mom" false 1].
Proof.
  change [mkTask "Buy milk" false 2; mkTask "Call mom" false 1]
    with (tasks (final_world
                   (add_task basic (mkWorld [mkTask "Buy milk" false 2] [" Call mom"; "1"] [])))).
  apply (reachable_action basic _ 1); [| reflexivity].
  change [mkTask "Buy milk" false 2]
    with (tasks (final_world (add_task basic (mkWorld [] ["Buy milk"; "x"; "2"] [])))).
  apply (reachable_action basic _ 1); [| reflexivity].
  apply reachable_initial.
Defined.



Lemma add_task_blank_refused_witness :
  add_task basic
      (mkWorld [mkTask "Buy milk" false 2] [[32; 160; 12288; 9]%N; "1"] [])
    = Returned ()
        (mkWorld [mkTask "Buy milk" false 2] ["1"]
           ["Task title: "; line_of "Title cannot be empty."]).
Proof.
  apply (add_task_blank_refused basic
           (mkWorld [mkTask "Buy milk" false 2] [[32; 160; 12288; 9]%N; "1"] [])
           [32; 160; 12288; 9]%N ["1"]).
  - reflexivity.
  - repeat constructor.
Defined.

Lemma search_tasks_spec_witness :
  search_tasks basic (mkWorld [mkTask "Call mom" true 1; mkTask "Pay bills" false 1;
                         mkTask "Buy milk" false 2] [" BIL "] [])
    = Returned ()
        (mkWorld [mkTask "Call mom" true 1; mkTask "Pay bills" false 1;
                  mkTask "Buy milk" false 2] []
           ["Enter keyword to search: "; line_of (Text.nl ++ "Search results:");
            line_of "1. [ ] Pay bills (Priority: 1)"]).
Proof.
  exact (proj2 (proj2 (search_tasks_spec basic
                         (mkWorld [mkTask "Call mom" true 1; mkTask "Pay bills" false 1;
                                   mkTask "Buy milk" false 2] [" BIL "] [])
                         " BIL " [] eq_refl))).
Defined.

(** C6 as it was stated fails for some keywords.  [find_matching_tasks basic]
    finds nothing for [BIL], which [Pay bills] contains when case is
    ignored; [search_tasks basic] refuses the empty keyword, which every title
    contains; and it finds [Pay bills] for a keyword with blanks after it,
    which the title does not contain. *)
Lemma search_not_every_keyword :
  (ci_contains basic "BIL" "Pay bills" = true ∧
   find_matching_tasks basic [mkTask "Pay bills" false 1] "BIL" = []) ∧
  (ci_contains basic "" "Pay bills" = true ∧
   search_tasks basic (mkWorld [mkTask "Pay bills" false 1] [""] [])
     = Returned ()
         (mkWorld [mkTask "Pay bills" false 1] []
            ["Enter keyword to search: "; line_of "Keyword cannot be empty."])) ∧
  (ci_contains basic "bil  " "Pay bills" = false ∧
   search_tasks basic (mkWorld [mkTask "Pay bills" false 1] ["bil  "] [])
     = Returned ()
         (mkWorld [mkTask "Pay bills" false 1] []
            ["Enter keyword to search: "; line_of (Text.nl ++ "Search results:");
             line_of "1. [ ] Pay bills (Priority: 1)"])).
Proof. repeat split; reflexivity. Qed.

Example scenario_show_order :
  let ts := [mkTask "Buy milk" false 2; mkTask "Call mom" false 1;
             mkTask "Pay bills" false 1] in
  build_display_groups ts
    = ([(1%nat, mkTask "Call mom" false 1); (2%nat, mkTask "Pay bills" false 1);
        (0%nat, mkTask "Buy milk" false 2)], []).
Proof. reflexivity. Qed.

Example scenario_toggle_first :
  let ts := [mkTask "Buy milk" false 2; mkTask "Call mom" false 1;
             mkTask "Pay bills" false 1] in
  option_map build_display_groups
    (match toggle_task basic (mkWorld ts ["1"] []) with
     | Returned _ w => Some (tasks w)
     | Raised _ _ => None
     end)
    = Some ([(2%nat, mkTask "Pay bills" false 1); (0%nat, mkTask "Buy milk" false 2)],
            [(1%nat, mkTask "Call mom" true 1)]).
Proof. reflexivity. Qed.

Example scenario_delete_last_task :
  final_world ((delete_task basic;; show_tasks) (mkWorld [mkTask "Buy milk" false 2] ["1"] []))
    = mkWorld [] []
        ["Enter task number to delete: "; line_of "Task deleted.";
         line_of "No tasks found."].
Proof. reflexivity. Qed.

Lemma input_priority_first_accepted_witness :
  input_priority basic (mkWorld [] ["high"; "7"; " 2 "; "x"] [])
    = Returned 2
        (mkWorld [] ["x"]
           ["Enter priority (1=High, 2=Medium, 3=Low): ";
            line_of "Please enter a number (1-3).";
            "Enter priority (1=High, 2=Medium, 3=Low): ";
            line_of "Invalid priority. Try again.";
            "Enter priority (1=High, 2=Medium, 3=Low): "]).
Proof.
  apply (proj1 (input_priority_first_accepted basic
                  (mkWorld [] ["high"; "7"; " 2 "; "x"] []) ["high"; "7"]
                  ltac:(repeat constructor))
           " 2 " ["x"] 2 eq_refl eq_refl).
Defined.

Lemma add_task_appends_witness :
  add_task basic (mkWorld [mkTask "Buy milk" false 2] ["  Call Mom "; "urgent"; "1"; "0"] [])
    = Returned ()
        (mkWorld [mkTask "Buy milk" false 2; mkTask "Call Mom" false 1] ["0"]
           ["Task title: ";
            "Enter priority (1=High, 2=Medium, 3=Low): ";
            line_of "Please enter a number (1-3).";
            "Enter priority (1=High, 2=Medium, 3=Low): ";
            line_of "Task added."]).
Proof.
  apply (add_task_appends basic
           (mkWorld [mkTask "Buy milk" false 2] ["  Call Mom "; "urgent"; "1"; "0"] [])
           "  Call Mom " ["urgent"] "1" ["0"] 1 eq_refl).
  - discriminate.
  - reflexivity.
  - repeat constructor.
  - reflexivity.
Defined.

Lemma reachable_tasks_clean_witness :
  Text.strip "Call mom" = "Call mom" ∧ "Call mom" ≠ "" ∧
  ((1 : Z) = 1 ∨ (1 : Z) = 2 ∨ (1 : Z) = 3).
Proof.
  apply (reachable_tasks_clean basic
           [mkTask "Buy milk" false 2; mkTask "Call mom" false 1]
           (mkTask "Call mom" false 1) reachable_two_tasks).
  apply list_elem_of_further, list_elem_of_here.
Defined.

Lemma actions_end_orderly_witness :
  stdin (final_world
           (delete_task basic (mkWorld [mkTask "Buy milk" false 2] [] [])))
    `suffix_of` [] ∧
  ((∃ w', delete_task basic (mkWorld [mkTask "Buy milk" false 2] [] [])
            = Returned () w') ∨
   (∃ w', delete_task basic (mkWorld [mkTask "Buy milk" false 2] [] [])
            = Raised EOFError w' ∧ stdin w' = [])).
Proof.
  exact (actions_end_orderly basic 4 (delete_task basic)
           (mkWorld [mkTask "Buy milk" false 2] [] []) eq_refl).
Defined.

Lemma main_ends_witness :
  (∃ w', main basic 4 (initial ["1"; "Buy milk"; "2"]) = Returned false w') ∨
  (∃ w', main basic 4 (initial ["1"; "Buy milk"; "2"]) = Raised EOFError w' ∧ stdin w' = []).
Proof. apply (main_ends basic 4 (initial ["1"; "Buy milk"; "2"])). simpl. lia. Defined.

Lemma main_round_without_action_witness :
  ∃ menu,
    main_round basic (mkWorld [mkTask "Buy milk" false 2] ["9"; "0"] [])
      = Returned true
          (mkWorld [mkTask "Buy milk" false 2] ["0"]
             (menu ++ ["Select an option (0-6): ";
                       line_of "Invalid option. Try again."])).
Proof.
  destruct (main_round_without_action basic
              (mkWorld [mkTask "Buy milk" false 2] ["9"; "0"] []) "9" ["0"] eq_refl)
    as (menu & _ & _ & Hbad & _).
  exists menu. apply (Hbad 9 eq_refl). right. lia.
Defined.

Lemma show_tasks_numbers_witness :
  show_tasks (mkWorld [mkTask "Buy milk" false 2; mkTask "Call mom" true 1;
                       mkTask "Pay bills" false 1] [] [])
    = Returned ()
        (mkWorld [mkTask "Buy milk" false 2; mkTask "Call mom" true 1;
                  mkTask "Pay bills" false 1] []
           [line_of (Text.nl ++ "Tasks:"); line_of (Text.nl ++ "Undone:");
            line_of "1. [ ] Pay bills (Priority: 1)";
            line_of "2. [ ] Buy milk (Priority: 2)";
            line_of (Text.nl ++ "Done:");
            line_of "3. [x] Call mom (Priority: 1)"]).
Proof.
  exact (proj1 (show_tasks_numbers
                  (mkWorld [mkTask "Buy milk" false 2; mkTask "Call mom" true 1;
                            mkTask "Pay bills" false 1] [] [])
                  2 1 (mkTask "Call mom" true 1) eq_refl eq_refl)).
Defined.

Lemma toggle_task_moves_group_witness :
  ∃ w',
    toggle_task basic (mkWorld [mkTask "Buy milk" false 2; mkTask "Call mom" false 1]
                   ["1"] [])
      = Returned () w' ∧
    tasks w' !! 1%nat = Some (mkTask "Call mom" true 1).
Proof.
  destruct (toggle_task_moves_group basic
              (mkWorld [mkTask "Buy milk" false 2; mkTask "Call mom" false 1] ["1"] [])
              "1" [] 1 eq_refl eq_refl)
    as (i & t & w' & Hi & Ht & Hrun & _ & Hnew & _); [vm_compute; split; discriminate |].
  vm_compute in Hi. injection Hi as <-. vm_compute in Ht. injection Ht as <-.
  exists w'. split; [exact Hrun | exact Hnew].
Defined.

Lemma toggle_task_twice_witness :
  ∃ w1 w2,
    toggle_task basic (mkWorld [mkTask "Buy milk" false 2; mkTask "Call mom" false 1]
                   ["1"; "2"; "0"] [])
      = Returned () w1 ∧
    toggle_task basic w1 = Returned () w2 ∧
    tasks w2 = [mkTask "Buy milk" false 2; mkTask "Call mom" false 1] ∧
    stdin w2 = ["0"].
Proof.
  destruct (toggle_task_twice basic
              (mkWorld [mkTask "Buy milk" false 2; mkTask "Call mom" false 1]
                 ["1"; "2"; "0"] [])
              "1" "2" ["0"] 1 2 1 (mkTask "Call mom" false 1)
              eq_refl eq_refl eq_refl)
    as (w1 & w2 & H1 & H2 & _ & Ht & Hs);
    [simpl; lia | simpl; lia | reflexivity | reflexivity | reflexivity |].
  exists w1, w2. auto.
Defined.

Lemma delete_then_add_again_witness :
  ∃ w',
    (delete_task basic;; add_task basic)
        (mkWorld [mkTask "Buy milk" false 2; mkTask "Call mom" false 1]
           ["2"; "BUY MILK"; "3"] [])
      = Returned () w' ∧
    tasks w' = [mkTask "Call mom" false 1; mkTask "BUY MILK" false 3] ∧
    stdin w' = [].
Proof.
  destruct (delete_then_add_again basic
              (mkWorld [mkTask "Buy milk" false 2; mkTask "Call mom" false 1]
                 ["2"; "BUY MILK"; "3"] [])
              "2" "BUY MILK" "3" [] 2 3 0 (mkTask "Buy milk" false 2)
              reachable_two_tasks eq_refl eq_refl)
    as (w' & Hrun & Hts & Hin);
    [simpl; lia | reflexivity | reflexivity | discriminate | reflexivity
    | reflexivity |].
  exists w'. auto.
Defined.

Lemma shown_number_selects_witness :
  delete_task basic (mkWorld [mkTask "Buy milk" false 2; mkTask "Call mom" true 1;
                        mkTask "Pay bills" false 1] ["3"] [])
    = Returned ()
        (mkWorld [mkTask "Buy milk" false 2; mkTask "Pay bills" false 1] []
           ["Enter task number to delete: "; line_of "Task deleted."]).
Proof.
  exact (proj2 (proj2 (shown_number_selects basic
                         (mkWorld [mkTask "Buy milk" false 2; mkTask "Call mom" true 1;
                                   mkTask "Pay bills" false 1] ["3"] [])
                         2 1 (mkTask "Call mom" true 1) [] eq_refl eq_refl eq_refl
                         ltac:(vm_compute; lia)))).
Defined.

Lemma delete_keeps_display_order_witness :
  build_display_mapping
      (delete 1%nat [mkTask "Buy milk" false 2; mkTask "Call mom" true 1;
                     mkTask "Pay bills" false 1])
    = shifted 1 <$> List.filter (other_than 1)
        (build_display_mapping [mkTask "Buy milk" false 2; mkTask "Call mom" true 1;
                                mkTask "Pay bills" false 1]).
Proof.
  apply (delete_keeps_display_order
           [mkTask "Buy milk" false 2; mkTask "Call mom" true 1;
            mkTask "Pay bills" false 1] 1%nat).
  simpl. lia.
Defined.

(** *** Text outside ASCII, with the table [sample] *)

(** [École] is in the store; [éCOLE] has the same lower-case form and is
    refused. *)
Example accented_duplicate_refused :
  add_task sample
      (mkWorld [mkTask [201; 99; 111; 108; 101]%N false 1]
         [[233; 67; 79; 76; 69]%N; "1"] [])
    = Returned ()
        (mkWorld [mkTask [201; 99; 111; 108; 101]%N false 1] ["1"]
           ["Task title: "; line_of "Task with this title already exists."]).
Proof. reflexivity. Qed.

(** The fullwidth digit two, followed by an ideographic space, is the
    number 2 for [int], and picks the second line of the display. *)
Example fullwidth_digit_read :
  Text.int sample [65298; 12288]%N = Some 2 ∧
  toggle_task sample
      (mkWorld [mkTask "Buy milk" false 2; mkTask "Call mom" false 1]
         [[65298; 12288]%N] [])
    = Returned ()
        (mkWorld [mkTask "Buy milk" true 2; mkTask "Call mom" false 1] []
           ["Enter task number to toggle: "; line_of "Task status updated."]).
Proof. split; reflexivity. Qed.

(** A search for [ÉCOLE] finds [école]. *)
Example accented_search_finds :
  search_tasks sample
      (mkWorld [mkTask [233; 99; 111; 108; 101]%N true 3]
         [[201; 67; 79; 76; 69]%N] [])
    = Returned ()
        (mkWorld [mkTask [233; 99; 111; 108; 101]%N true 3] []
           ["Enter keyword to search: "; line_of (Text.nl ++ "Search results:");
            line_of ("1. [x] " ++ [233; 99; 111; 108; 101]%N ++ " (Priority: 3)")]).
Proof. reflexivity. Qed.
